(** * The parcel lookup builder: model and properties

    The lookup builder script (the first script of src/unnamed/part_000, the
    one with the official commune list) reads GeoJSON parcel collections,
    resolves for every feature a parcel identifier and a commune name, and
    builds two maps: parcel identifier -> record, commune name -> aggregate.
    This file embeds the script's functions as Rocq functions and proves the
    properties the specification states about them.

    Conventions of the embedding:
    - a JavaScript value read from parsed JSON is a [json]; [undefined] is
      [None] in [option json];
    - a string is a [string], text beyond ASCII being carried in an encoding
      that keeps the ASCII characters and uses their codes for nothing else
      (UTF-8); [Str.trim] and [Str.toUpperCase] are the built-in [trim] and
      [toUpperCase] as they act on ASCII text, and the properties that depend
      on what the built-ins do to other text (Unicode white space, letters
      beyond a-z) are stated in [Builtins], over any [trim] and [toUpperCase]
      that obey [Builtins.Laws];
    - a JavaScript object used as a map is a [gmap string _] of its own
      properties, and what it inherits from [Object.prototype] is written out
      where the script can reach it;
    - a call that can raise a TypeError returns a [completion]. *)

From Stdlib Require Import ZArith Ascii String Bool List Lia.
From stdpp Require Import base option list strings pretty gmap fin_maps.

Local Open Scope string_scope.
Local Open Scope list_scope.

(** ** Completions: a normal result or a thrown exception *)

Inductive exn : Set := TypeError.

Inductive completion (A : Type) : Type :=
| Returned (a : A)
| Thrown (e : exn).
Arguments Returned {A} a.
Arguments Thrown {A} e.

#[global] Instance completion_ret : MRet completion := fun A a => Returned a.
#[global] Instance completion_bind : MBind completion := fun A B f m =>
  match m with
  | Returned a => f a
  | Thrown e => Thrown e
  end.

(** ** Strings *)

Module Str.

(** WhiteSpace and LineTerminator code points of the ASCII range: tab, line
    feed, vertical tab, form feed, carriage return and space. *)
Definition isWhiteSpace (c : ascii) : bool :=
  let n := nat_of_ascii c in
  (((9 <=? n) && (n <=? 13)) || (n =? 32))%nat.

Definition upperChar (c : ascii) : ascii :=
  let n := nat_of_ascii c in
  if ((97 <=? n) && (n <=? 122))%nat then ascii_of_nat (n - 32) else c.

Definition isLower (c : ascii) : bool :=
  let n := nat_of_ascii c in ((97 <=? n) && (n <=? 122))%nat.

(** [String.prototype.toUpperCase], on ASCII text: the letters a-z are
    raised, every other character is kept. *)
Fixpoint toUpperCase (s : string) : string :=
  match s with
  | EmptyString => EmptyString
  | String c r => String (upperChar c) (toUpperCase r)
  end.

Fixpoint trimStart (s : string) : string :=
  match s with
  | EmptyString => EmptyString
  | String c r => if isWhiteSpace c then trimStart r else s
  end.

Fixpoint trimEnd (s : string) : string :=
  match s with
  | EmptyString => EmptyString
  | String c r =>
      match trimEnd r with
      | EmptyString =>
          if isWhiteSpace c then EmptyString else String c EmptyString
      | r' => String c r'
      end
  end.

(** [String.prototype.trim], on ASCII text: the white space of [isWhiteSpace]
    is stripped from both ends. *)
Definition trim (s : string) : string := trimEnd (trimStart s).

(** [String.prototype.includes]: [needle] occurs in [s] as a substring. *)
Fixpoint includes (s needle : string) : bool :=
  String.prefix needle s ||
  match s with
  | EmptyString => false
  | String _ r => includes r needle
  end.

(** [s.replace(/ /g, '_')] *)
Fixpoint replaceSpaces (s : string) : string :=
  match s with
  | EmptyString => EmptyString
  | String c r =>
      String (if Ascii.eqb c " "%char then "_"%char else c) (replaceSpaces r)
  end.

Definition isEmpty (s : string) : bool :=
  match s with EmptyString => true | String _ _ => false end.

(** The one-character strings a [for ... of] over a string yields. *)
Fixpoint chars (s : string) : list string :=
  match s with
  | EmptyString => []
  | String c r => String c EmptyString :: chars r
  end.

(** Some character of [s] is an ASCII lower-case letter. *)
Fixpoint hasLower (s : string) : bool :=
  match s with
  | EmptyString => false
  | String c r => isLower c || hasLower r
  end.

(** Every character of [s] is an ASCII character. *)
Fixpoint isAscii (s : string) : bool :=
  match s with
  | EmptyString => true
  | String c r => (nat_of_ascii c <? 128)%nat && isAscii r
  end.

End Str.

(** ** JSON values, as [JSON.parse] delivers them *)

(** A number.  [NInt z] is an integer of magnitude at most 2^53, the range in
    which every integer is a double of its own and [String] prints exactly its
    decimal digits; zero (of either sign) is the only falsy one, [JSON.parse]
    never yields NaN.  [NReal r] is any other number (fractional, or beyond
    2^53, where [String] prints the shortest digits that give the double
    back, or an exponent form); it is truthy and is carried with the text [r]
    that [String] prints for it. *)
Inductive number : Set :=
| NInt (z : Z)
| NReal (r : string).

#[warnings="-register-all"] Inductive json : Set :=
| JNull
| JBool (b : bool)
| JNum (n : number)
| JStr (s : string)
| JArr (elements : list json)
| JObj (members : list (string * json)).

(** A JavaScript value the script handles: [None] is [undefined]. *)
Abbreviation value := (option json).
Abbreviation undefined := (@None json).

Module JS.

Definition numberTruthy (n : number) : bool :=
  match n with
  | NInt z => negb (Z.eqb z 0)
  | NReal _ => true
  end.

Definition numberToString (n : number) : string :=
  match n with
  | NInt z => pretty z
  | NReal r => r
  end.

(** ToBoolean *)
Definition truthy (v : value) : bool :=
  match v with
  | None => false
  | Some JNull => false
  | Some (JBool b) => b
  | Some (JNum n) => numberTruthy n
  | Some (JStr s) => negb (Str.isEmpty s)
  | Some (JArr _) => true
  | Some (JObj _) => true
  end.

(** [a || b] *)
Definition or (a b : value) : value := if truthy a then a else b.

(** Own property [k] of an object parsed from the member list [ms]; of two
    members with one name [JSON.parse] keeps the later one. *)
Fixpoint getOwn (k : string) (ms : list (string * json)) : value :=
  match ms with
  | [] => None
  | (k', v) :: rest =>
      match getOwn k rest with
      | Some w => Some w
      | None => if String.eqb k' k then Some v else None
      end
  end.

Definition hasOwn (k : string) (ms : list (string * json)) : bool :=
  match getOwn k ms with Some _ => true | None => false end.

(** [String(v)] for a value that is not [undefined].  An array joins the
    strings of its elements with commas, [null] elements giving the empty
    string.  A plain object prints through [Object.prototype.toString],
    unless it has an own property [toString]: parsed JSON is never callable,
    [valueOf] then gives no primitive either, and the conversion raises a
    TypeError. *)
Fixpoint toString (v : json) : completion string :=
  match v with
  | JNull => Returned "null"
  | JBool true => Returned "true"
  | JBool false => Returned "false"
  | JNum n => Returned (numberToString n)
  | JStr s => Returned s
  | JArr xs =>
      (fix join (xs : list json) : completion string :=
         match xs with
         | [] => Returned ""
         | x :: rest =>
             s ← match x with JNull => Returned "" | _ => toString x end;
             match rest with
             | [] => Returned s
             | _ => r ← join rest; Returned (s +:+ "," +:+ r)
             end
         end) xs
  | JObj ms =>
      if hasOwn "toString" ms then Thrown TypeError
      else Returned "[object Object]"
  end.

(** The names every object inherits from [Object.prototype]: eleven
    functions and the accessor [__proto__]. *)
Definition prototypeNames : list string :=
  [ "constructor"; "__defineGetter__"; "__defineSetter__"; "hasOwnProperty";
    "__lookupGetter__"; "__lookupSetter__"; "isPrototypeOf";
    "propertyIsEnumerable"; "toString"; "valueOf"; "__proto__";
    "toLocaleString" ].

End JS.

(** ** The script *)

(** Official list of communes *)
Definition OFFICIAL_COMMUNES : list string :=
  [ "BALLOU"; "GABOU"; "MOUDERY"; "BALA"; "KOAR"; "SINTHIOU MALEME";
    "NDOGA BABACAR"; "NETTEBOULOU"; "MISSIRAH"; "BANDAFASSI"; "DINDEFELO";
    "TOMBORONKOTO"; "DIMBOLI"; "FONGOLIMBI"; "MEDINA BAFFE"; "BEMBOU";
    "SABODALA" ].

(** Mapping for alternate spellings to official names *)
Definition COMMUNE_SPELLING_VARIANTS : gmap string string :=
  <["DINDEFELLO" := "DINDEFELO"]> (<["FONGOLEMBI" := "FONGOLIMBI"]> ∅).

(** A variable of the script that holds a string or [null]. *)
Definition truthyS (s : option string) : bool :=
  match s with
  | None => false
  | Some s => negb (Str.isEmpty s)
  end.

(** [o[k]] for an object [o] other than [null] and a property name [k] that
    the script reads from parsed JSON ([features], [properties], the
    identifier keys, the commune fields, [source_file]).  None of these names
    is built into a prototype or is an own property of a string or of an
    array, so the read finds the own property of a parsed object, or nothing;
    except that [commune] is found on [Object.prototype] once the run has put
    it there: [protoCommune] is [Object.prototype.commune], see
    [storeRecord]. *)
Definition read (protoCommune : option string) (o : json) (k : string)
  : value :=
  let inherited :=
    if String.eqb k "commune" then JStr <$> protoCommune else None in
  match o with
  | JObj ms =>
      match JS.getOwn k ms with
      | Some v => Some v
      | None => inherited
      end
  | _ => inherited
  end.

(** [normalizeName].  The lookup in [COMMUNE_SPELLING_VARIANTS] is a lookup
    among its own properties: the key is an upper-cased string, and every name
    the object could inherit has a lower-case letter
    ([toUpperCase_not_inherited]). *)
Definition normalizeName (v : value) : completion (option string) :=
  match v with
  | Some j =>
      if negb (JS.truthy v) then Returned None
      else
        s ← JS.toString j;
        let normalized := Str.toUpperCase (Str.trim s) in
        if truthyS (COMMUNE_SPELLING_VARIANTS !! normalized)
        then Returned (COMMUNE_SPELLING_VARIANTS !! normalized)
        else Returned (Some normalized)
  | None => Returned None
  end.

Definition numParcelKeys : list string :=
  [ "Num_parcel"; "NUM_PARCEL"; "num_parcel"; "numParcel"; "num"; "ID"; "id";
    "Id_parcel"; "IDPARCEL" ].

(** [findNumParcel], as a loop over [keys]. *)
Fixpoint findNumParcelIn (protoCommune : option string) (props : json)
    (keys : list string) : completion (option string) :=
  match keys with
  | [] => Returned None
  | k :: rest =>
      match read protoCommune props k with
      | Some j =>
          if JS.truthy (Some j) then s ← JS.toString j; Returned (Some s)
          else findNumParcelIn protoCommune props rest
      | None => findNumParcelIn protoCommune props rest
      end
  end.

Definition findNumParcel (protoCommune : option string) (props : json)
  : completion (option string) :=
  findNumParcelIn protoCommune props numParcelKeys.

(** [extractCommuneFromSourceFile] *)
Definition extractCommuneFromSourceFile (sourceFile : value)
  : completion (option string) :=
  match sourceFile with
  | Some j =>
      if negb (JS.truthy sourceFile) then Returned None
      else
        s ← JS.toString j;
        let normalized := Str.toUpperCase s in
        match find (fun commune => Str.includes normalized commune)
                   OFFICIAL_COMMUNES with
        | Some commune => Returned (Some commune)
        | None =>
            Returned
              (find (fun commune =>
                       Str.includes normalized (Str.replaceSpaces commune))
                    OFFICIAL_COMMUNES)
        end
  | None => Returned None
  end.

Definition directFields : list string :=
  [ "commune"; "CCRCA"; "CCRCA_1"; "CAV"; "Nom"; "name" ].

(** The argument of [normalizeName] in [main]:
    [props['commune'] || props['CCRCA'] || ... || props['name']]. *)
Definition directValue (protoCommune : option string) (props : json) : value :=
  JS.or (JS.or (JS.or (JS.or (JS.or
    (read protoCommune props "commune")
    (read protoCommune props "CCRCA"))
    (read protoCommune props "CCRCA_1"))
    (read protoCommune props "CAV"))
    (read protoCommune props "Nom"))
    (read protoCommune props "name").

(** The commune of a feature, as [main] computes it from [props]: the direct
    fields first, then the [source_file] hint. *)
Definition extractCommune (protoCommune : option string) (props : json)
  : completion (option string) :=
  commune ← normalizeName (directValue protoCommune props);
  if negb (truthyS commune) && JS.truthy (read protoCommune props "source_file")
  then extractCommuneFromSourceFile (read protoCommune props "source_file")
  else Returned commune.

(** [{ commune: ..., properties: props }] *)
Record ParcelRecord : Set := { commune : option string; properties : json }.

(** [{ count: 0, parcels: [] }].  [count] is a natural number: the script
    adds one to a double, which is exact far beyond the number of features
    twelve files can hold. *)
Record Aggregate : Set := { count : nat; parcels : list string }.

(** What [main] builds.  [numParcelMap] and [communeMap] hold the own
    properties of the two objects of these names.  [builtinCommune] holds the
    [commune] property that the run has put on the objects [numParcelMap]
    inherits under the names of [JS.prototypeNames]: for a function name, on
    that function; for [__proto__], on [Object.prototype] itself, from where
    every object then inherits it. *)
Record State : Type := {
  numParcelMap : gmap string ParcelRecord;
  communeMap : gmap string Aggregate;
  builtinCommune : gmap string string
}.

(** [Object.prototype.commune] *)
Definition polluted (st : State) : option string :=
  builtinCommune st !! "__proto__".

(** Initialize communeMap with all official communes *)
Definition initialState : State :=
  {| numParcelMap := ∅;
     communeMap :=
       foldl (fun m commune => <[commune := {| count := 0; parcels := [] |}]> m)
             ∅ OFFICIAL_COMMUNES;
     builtinCommune := ∅ |}.

(** The value of [numParcelMap[num]] when [num] is no own property. *)
Inductive inheritedSlot : Set :=
| BuiltinObject       (* a function of Object.prototype, or Object.prototype *)
| PollutedCommune     (* the string at Object.prototype.commune *)
| Missing.            (* undefined *)

Definition inheritedSlotOf (st : State) (num : string) : inheritedSlot :=
  if bool_decide (num ∈ JS.prototypeNames) then BuiltinObject
  else if String.eqb num "commune" && truthyS (polluted st) then PollutedCommune
  else Missing.

(** The first half of the body of [if (num)] in [main]:
    [if (!numParcelMap[num]) {...} else {...}]. *)
Definition storeRecord (st : State) (num : string) (com : option string)
    (props : json) : State :=
  match numParcelMap st !! num with
  | Some r =>
      if negb (truthyS (commune r)) && truthyS com
      then {| numParcelMap :=
                <[num := {| commune := com; properties := properties r |}]>
                  (numParcelMap st);
              communeMap := communeMap st;
              builtinCommune := builtinCommune st |}
      else st
  | None =>
      match inheritedSlotOf st num with
      | Missing =>
          {| numParcelMap :=
               <[num := {| commune := if truthyS com then com else None;
                           properties := props |}]> (numParcelMap st);
             communeMap := communeMap st;
             builtinCommune := builtinCommune st |}
      | BuiltinObject =>
          (* the built-in is truthy; its [commune] is its own or the one of
             Object.prototype, and is written on the built-in when empty *)
          let current :=
            match builtinCommune st !! num with
            | Some s => Some s
            | None => polluted st
            end in
          match com with
          | Some c =>
              if negb (truthyS current) && truthyS com
              then {| numParcelMap := numParcelMap st;
                      communeMap := communeMap st;
                      builtinCommune := <[num := c]> (builtinCommune st) |}
              else st
          | None => st
          end
      | PollutedCommune =>
          (* a truthy string, whose [commune] is again that string *)
          st
      end
  end.

(** The second half: [if (commune && communeMap[commune]) {...}].  The lookup
    is among own properties, as in [normalizeName]: [com] is upper-cased or an
    official name ([extractCommune_not_inherited]). *)
Definition countSighting (st : State) (num : string) (com : option string)
  : State :=
  match com with
  | Some c =>
      if truthyS com then
        match communeMap st !! c with
        | Some a =>
            {| numParcelMap := numParcelMap st;
               communeMap :=
                 <[c := {| count := count a + 1;
                           parcels := if (length (parcels a) <? 1000)%nat
                                      then parcels a ++ [num]
                                      else parcels a |}]> (communeMap st);
               builtinCommune := builtinCommune st |}
        | None => st
        end
      else st
  | None => st
  end.

Definition storeSighting (st : State) (num : string) (com : option string)
    (props : json) : State :=
  countSighting (storeRecord st num com props) num com.

(** What the loop body reads off a feature: [props], [num] and [commune]. *)
Definition resolveFeature (protoCommune : option string) (feat : json)
  : completion (json * option string * option string) :=
  match feat with
  | JNull => Thrown TypeError
  | _ =>
      let props :=
        match read protoCommune feat "properties" with
        | Some p => if JS.truthy (Some p) then p else JObj []
        | None => JObj []
        end in
      num ← findNumParcel protoCommune props;
      com ← extractCommune protoCommune props;
      Returned (props, num, com)
  end.

(** The body of [for (const feat of features)]. *)
Definition processFeature (st : State) (feat : json) : completion State :=
  '(props, num, com) ← resolveFeature (polluted st) feat;
  match num with
  | Some n => if truthyS num then Returned (storeSighting st n com props)
              else Returned st
  | None => Returned st
  end.

Fixpoint processFeatures (st : State) (features : list json)
  : completion State :=
  match features with
  | [] => Returned st
  | feat :: rest => st' ← processFeature st feat; processFeatures st' rest
  end.

(** What [for ... of] iterates over: the elements of an array, the characters
    of a string; any other value is not iterable. *)
Definition iterate (v : json) : completion (list json) :=
  match v with
  | JArr xs => Returned xs
  | JStr s => Returned (JStr <$> Str.chars s)
  | _ => Thrown TypeError
  end.

(** A file of the run: what [JSON.parse] makes of its contents. *)
Inductive parsed : Set :=
| SyntaxError
| Document (gj : json).

(** The body of [for (const f of files)]. *)
Definition processFile (st : State) (f : parsed) : completion State :=
  match f with
  | SyntaxError => Returned st
  | Document JNull => Thrown TypeError
  | Document gj =>
      let features :=
        match read (polluted st) gj "features" with
        | Some fs => if JS.truthy (Some fs) then fs else JArr []
        | None => JArr []
        end in
      features ← iterate features;
      processFeatures st features
  end.

Fixpoint processFiles (st : State) (files : list parsed) : completion State :=
  match files with
  | [] => Returned st
  | f :: rest => st' ← processFile st f; processFiles st' rest
  end.

(** [main], from the files found to the two maps written. *)
Definition main (files : list parsed) : completion State :=
  processFiles initialState files.

(** ** The sightings of a run *)

(** A sighting: a feature that reached the body of [if (num)], with the
    identifier, the commune and the property bag resolved for it. *)
Definition Sighting : Type := string * option string * json.

Definition sighted (r : json * option string * option string)
  : option Sighting :=
  let '(props, num, com) := r in
  match num with
  | Some n => if truthyS num then Some (n, com, props) else None
  | None => None
  end.

Definition applySighting (st : State) (s : Sighting) : State :=
  let '(n, com, props) := s in storeSighting st n com props.

(** The sightings of the features of one file, in processing order, each
    resolved in the state the loop has reached. *)
Fixpoint featureSightings (st : State) (features : list json)
  : completion (list Sighting) :=
  match features with
  | [] => Returned []
  | feat :: rest =>
      r ← resolveFeature (polluted st) feat;
      st' ← processFeature st feat;
      tr ← featureSightings st' rest;
      Returned (option_list (sighted r) ++ tr)
  end.

Definition fileSightings (st : State) (f : parsed)
  : completion (list Sighting) :=
  match f with
  | SyntaxError => Returned []
  | Document JNull => Thrown TypeError
  | Document gj =>
      let features :=
        match read (polluted st) gj "features" with
        | Some fs => if JS.truthy (Some fs) then fs else JArr []
        | None => JArr []
        end in
      features ← iterate features;
      featureSightings st features
  end.

Fixpoint runSightings (st : State) (files : list parsed)
  : completion (list Sighting) :=
  match files with
  | [] => Returned []
  | f :: rest =>
      tr ← fileSightings st f;
      st' ← processFile st f;
      tr' ← runSightings st' rest;
      Returned (tr ++ tr')
  end.

(** The identifiers of the sightings attributed to [c], in order. *)
Definition attributed (c : string) (tr : list Sighting) : list string :=
  omap (fun s : Sighting =>
          let '(n, com, _) := s in
          if bool_decide (com = Some c) then Some n else None) tr.

(** The sightings of the identifier [n]: commune and property bag, in order. *)
Definition sightingsOf (n : string) (tr : list Sighting)
  : list (option string * json) :=
  omap (fun s : Sighting =>
          let '(n', com, props) := s in
          if bool_decide (n' = n) then Some (com, props) else None) tr.

(** The first commune of a list that is a non-empty string. *)
Fixpoint firstTruthy (coms : list (option string)) : option string :=
  match coms with
  | [] => None
  | com :: rest => if truthyS com then com else firstTruthy rest
  end.

(** The record the specification describes for an identifier with the
    sightings [ss]: the property bag of the first one, and the first commune
    that is set. *)
Definition expectedRecord (ss : list (option string * json))
  : option ParcelRecord :=
  match ss with
  | [] => None
  | (_, props) :: _ =>
      Some {| commune := firstTruthy (fst <$> ss); properties := props |}
  end.

(** ** Notions the properties are stated with *)

(** The canonical form of an upper-cased, trimmed name: its entry in the
    spelling variants when it has one, else the name itself. *)
Definition canonicalOf (normalized : string) : string :=
  default normalized (COMMUNE_SPELLING_VARIANTS !! normalized).

(** [undefined], [null], a boolean, a number or a string. *)
Definition isScalar (v : value) : bool :=
  match v with
  | Some (JArr _) | Some (JObj _) => false
  | _ => true
  end.

(** [c] is the first element of [l] that passes the test [p]. *)
Definition FirstIn (p : string -> bool) (l : list string) (c : string) : Prop :=
  exists pre post, l = pre ++ c :: post /\ p c = true /\
                   forall x, x ∈ pre -> p x = false.

(** The aggregate map has exactly the official communes as keys. *)
Definition officialKeys (m : gmap string Aggregate) : Prop :=
  forall c, is_Some (m !! c) <-> c ∈ OFFICIAL_COMMUNES.

(** The file of the concrete scenario of the specification. *)
Definition scenarioFile : parsed :=
  Document (JObj [("features", JArr [
    JObj [("properties",
           JObj [("Num_parcel", JStr "A1"); ("commune", JStr "dindefello")])];
    JObj [("properties", JObj [("Num_parcel", JStr "A1")])];
    JObj [("properties",
           JObj [("IDPARCEL", JStr "B2"); ("CCRCA", JStr "KOAR")])] ])]).

Definition scenarioParcels : gmap string ParcelRecord :=
  <["A1" := {| commune := Some "DINDEFELO";
               properties := JObj [("Num_parcel", JStr "A1");
                                   ("commune", JStr "dindefello")] |}]>
  (<["B2" := {| commune := Some "KOAR";
                properties := JObj [("IDPARCEL", JStr "B2");
                                    ("CCRCA", JStr "KOAR")] |}]> ∅).

(** A feature of parcel A1 in KOAR, and a file of [k] such features. *)
Definition koarFeature : json :=
  JObj [("properties",
         JObj [("Num_parcel", JStr "A1"); ("commune", JStr "Koar")])].

Definition koarFile (k : nat) : parsed :=
  Document (JObj [("features", JArr (replicate k koarFeature))]).

Definition koarSighting : Sighting :=
  ("A1", Some "KOAR",
   JObj [("Num_parcel", JStr "A1"); ("commune", JStr "Koar")]).

(** The sightings of the scenario. *)
Definition scenarioSightings : list Sighting :=
  [ ("A1", Some "DINDEFELO",
     JObj [("Num_parcel", JStr "A1"); ("commune", JStr "dindefello")]);
    ("A1", None, JObj [("Num_parcel", JStr "A1")]);
    ("B2", Some "KOAR",
     JObj [("IDPARCEL", JStr "B2"); ("CCRCA", JStr "KOAR")]) ].

(** The commune a record holds after a sighting with commune [new], when it
    held [cur] before: [if (!record.commune && commune) record.commune =
    commune]. *)
Definition backfill (cur new : option string) : option string :=
  if negb (truthyS cur) && truthyS new then new else cur.

(** A file in which parcel A1 is sighted without a commune and then with a
    blank one, and its sightings. *)
Definition blankCommuneFile : parsed :=
  Document (JObj [("features", JArr [
    JObj [("properties", JObj [("Num_parcel", JStr "A1")])];
    JObj [("properties",
           JObj [("Num_parcel", JStr "A1"); ("commune", JStr " ")])] ])]).

Definition blankCommuneSightings : list Sighting :=
  [ ("A1", None, JObj [("Num_parcel", JStr "A1")]);
    ("A1", Some "", JObj [("Num_parcel", JStr "A1"); ("commune", JStr " ")]) ].

(** A file in which parcel A1 is sighted in KOAR and then in a commune that
    is not official. *)
Definition conflictFile : parsed :=
  Document (JObj [("features", JArr [
    JObj [("properties",
           JObj [("Num_parcel", JStr "A1"); ("commune", JStr "KOAR")])];
    JObj [("properties",
           JObj [("Num_parcel", JStr "A1"); ("commune", JStr "Elsewhere")])] ])]).

Definition conflictSightings : list Sighting :=
  [ ("A1", Some "KOAR",
     JObj [("Num_parcel", JStr "A1"); ("commune", JStr "KOAR")]);
    ("A1", Some "ELSEWHERE",
     JObj [("Num_parcel", JStr "A1"); ("commune", JStr "Elsewhere")]) ].

(** A feature of parcel Z9 in a commune that is not official. *)
Definition unofficialFeature : json :=
  JObj [("properties",
         JObj [("Num_parcel", JStr "Z9"); ("commune", JStr "Elsewhere")])].

(** Well-formed input: a property bag whose values are scalars, a feature
    that is an object whose [properties], when there, is such a bag or null,
    a file that does not parse or is an object whose [features], when there,
    is an array of such features. *)
Definition scalarBag (bag : list (string * json)) : bool :=
  forallb (fun kv : string * json => isScalar (Some kv.2)) bag.

Definition plainFeature (feat : json) : bool :=
  match feat with
  | JObj ms =>
      match JS.getOwn "properties" ms with
      | Some (JObj bag) => scalarBag bag
      | Some JNull | None => true
      | Some _ => false
      end
  | _ => false
  end.

Definition plainFile (f : parsed) : bool :=
  match f with
  | SyntaxError => true
  | Document (JObj ms) =>
      match JS.getOwn "features" ms with
      | Some (JArr features) => forallb plainFeature features
      | None => true
      | Some _ => false
      end
  | Document _ => false
  end.

(** A file with one feature, of the given property bag. *)
Definition oneFeatureFile (bag : list (string * json)) : parsed :=
  Document (JObj [("features", JArr [JObj [("properties", JObj bag)]])]).

(** A file whose first feature has the identifier [__proto__], and whose
    second feature has no commune field. *)
Definition protoFile : parsed :=
  Document (JObj [("features", JArr [
    JObj [("properties",
           JObj [("Num_parcel", JStr "__proto__"); ("commune", JStr "KOAR")])];
    JObj [("properties", JObj [("Num_parcel", JStr "B7")])] ])]).

(** ** The File Selector *)

Definition preferPatterns : list string :=
  [ "individual_parcels.normalized.source_commune.geojson";
    "individual_parcels.source_commune.geojson";
    "collective_parcels.normalized.source_commune.geojson";
    "collective_parcels.source_commune.geojson";
    "unjoined_parcels.normalized.source_commune.geojson";
    "unjoined_parcels.source_commune.geojson";
    "individual_parcels.normalized.geojson";
    "collective_parcels.normalized.geojson";
    "unjoined_parcels.normalized.geojson";
    "individual_parcels.geojson";
    "collective_parcels.geojson";
    "unjoined_parcels.geojson" ].

(** [if (!found.includes(m)) found.push(m)] *)
Definition pushNew (found : list string) (m : string) : list string :=
  if bool_decide (m ∈ found) then found else found ++ [m].

(** The two loops of [findParcelFiles] over a list of patterns.  [globSync]
    stands for the library call of the script: it takes a pattern [pat] to
    the paths that [glob.sync(path.join(PARCELS_DIR, pat))] returns, in the
    order it returns them. *)
Definition findParcelFilesIn (globSync : string -> list string)
    (patterns : list string) : list string :=
  foldl (fun found pat => foldl pushNew found (globSync pat)) [] patterns.

(** [findParcelFiles] *)
Definition findParcelFiles (globSync : string -> list string) : list string :=
  findParcelFilesIn globSync preferPatterns.

(** [m] comes before [m'] in [l]. *)
Definition Before (m m' : string) (l : list string) : Prop :=
  exists l1 l2 l3, l = l1 ++ m :: l2 ++ m' :: l3.

(** A directory listing for examples: every pattern matches the one file of
    its name. *)
Definition globAll (pat : string) : list string := [pat].

(** ** The second script of the file: the builder without the registry *)

Module Simple.

Definition preferPatterns : list string :=
  [ "collective_parcels.source_commune.geojson";
    "individual_parcels.source_commune.geojson";
    "unjoined_parcels.source_commune.geojson";
    "collective_parcels.normalized.source_commune.geojson";
    "individual_parcels.normalized.source_commune.geojson";
    "unjoined_parcels.normalized.source_commune.geojson";
    "collective_parcels.normalized.geojson";
    "individual_parcels.normalized.geojson";
    "unjoined_parcels.normalized.geojson";
    "collective_parcels.geojson";
    "individual_parcels.geojson";
    "unjoined_parcels.geojson" ].

(** [findParcelFiles]: the same loops, over the patterns of this script. *)
Definition findParcelFiles (globSync : string -> list string) : list string :=
  findParcelFilesIn globSync preferPatterns.

(** [normalizeName], without the spelling variants. *)
Definition normalizeName (v : value) : completion (option string) :=
  match v with
  | Some j =>
      if negb (JS.truthy v) then Returned None
      else s ← JS.toString j; Returned (Some (Str.toUpperCase (Str.trim s)))
  | None => Returned None
  end.

(** [if (commune) {...}]: the aggregate of [commune] is made when it is not
    there.  [com] is an upper-cased string, so the lookup is among own
    properties here too. *)
Definition countSighting (st : State) (num : string) (com : option string)
  : State :=
  match com with
  | Some c =>
      if truthyS com then
        let a := default {| count := 0; parcels := [] |} (communeMap st !! c) in
        {| numParcelMap := numParcelMap st;
           communeMap :=
             <[c := {| count := count a + 1;
                       parcels := if (length (parcels a) <? 1000)%nat
                                  then parcels a ++ [num]
                                  else parcels a |}]> (communeMap st);
           builtinCommune := builtinCommune st |}
      else st
  | None => st
  end.

(** The body of [if (num)]: the record as in the first script, then the
    aggregate. *)
Definition storeSighting (st : State) (num : string) (com : option string)
    (props : json) : State :=
  countSighting (storeRecord st num com props) num com.

Definition resolveFeature (protoCommune : option string) (feat : json)
  : completion (json * option string * option string) :=
  match feat with
  | JNull => Thrown TypeError
  | _ =>
      let props :=
        match read protoCommune feat "properties" with
        | Some p => if JS.truthy (Some p) then p else JObj []
        | None => JObj []
        end in
      num ← findNumParcel protoCommune props;
      com ← normalizeName (directValue protoCommune props);
      Returned (props, num, com)
  end.

Definition processFeature (st : State) (feat : json) : completion State :=
  '(props, num, com) ← resolveFeature (polluted st) feat;
  match num with
  | Some n => if truthyS num then Returned (storeSighting st n com props)
              else Returned st
  | None => Returned st
  end.

Fixpoint processFeatures (st : State) (features : list json)
  : completion State :=
  match features with
  | [] => Returned st
  | feat :: rest => st' ← processFeature st feat; processFeatures st' rest
  end.

Definition processFile (st : State) (f : parsed) : completion State :=
  match f with
  | SyntaxError => Returned st
  | Document JNull => Thrown TypeError
  | Document gj =>
      let features :=
        match read (polluted st) gj "features" with
        | Some fs => if JS.truthy (Some fs) then fs else JArr []
        | None => JArr []
        end in
      features ← iterate features;
      processFeatures st features
  end.

Fixpoint processFiles (st : State) (files : list parsed) : completion State :=
  match files with
  | [] => Returned st
  | f :: rest => st' ← processFile st f; processFiles st' rest
  end.

(** Both maps start empty. *)
Definition initialState : State :=
  {| numParcelMap := ∅; communeMap := ∅; builtinCommune := ∅ |}.

Definition main (files : list parsed) : completion State :=
  processFiles initialState files.

Definition applySighting (st : State) (s : Sighting) : State :=
  let '(n, com, props) := s in storeSighting st n com props.

(** The sightings of a run of this script, as for the first script. *)
Fixpoint featureSightings (st : State) (features : list json)
  : completion (list Sighting) :=
  match features with
  | [] => Returned []
  | feat :: rest =>
      r ← resolveFeature (polluted st) feat;
      st' ← processFeature st feat;
      tr ← featureSightings st' rest;
      Returned (option_list (sighted r) ++ tr)
  end.

Definition fileSightings (st : State) (f : parsed)
  : completion (list Sighting) :=
  match f with
  | SyntaxError => Returned []
  | Document JNull => Thrown TypeError
  | Document gj =>
      let features :=
        match read (polluted st) gj "features" with
        | Some fs => if JS.truthy (Some fs) then fs else JArr []
        | None => JArr []
        end in
      features ← iterate features;
      featureSightings st features
  end.

Fixpoint runSightings (st : State) (files : list parsed)
  : completion (list Sighting) :=
  match files with
  | [] => Returned []
  | f :: rest =>
      tr ← fileSightings st f;
      st' ← processFile st f;
      tr' ← runSightings st' rest;
      Returned (tr ++ tr')
  end.

End Simple.

(** A file whose document is an object with the array [features]. *)
Definition featuresFile (features : list json) : parsed :=
  Document (JObj [("features", JArr features)]).

(** What every sighting of a run satisfies: the identifier is a non-empty
    string, it is what [findNumParcel] finds in the property bag, and the
    commune is what [extractCommune] finds there. *)
Definition wellResolved (s : Sighting) : Prop :=
  let '(n, com, props) := s in
  n <> "" /\
  findNumParcel None props = Returned (Some n) /\
  exists p, extractCommune p props = Returned com.

(** ** The script over the built-in string functions *)

(** The functions of the script that call [String.prototype.trim] and
    [String.prototype.toUpperCase], with the two built-ins as the parameters
    [trim] and [toUpperCase]; the rest of the run is as above. *)
Module Builtins.

(** What the properties below use of the two built-ins.  [trim] strips the
    white space of both ends, so trimming twice is trimming once.
    [toUpperCase] replaces each character by its upper-case mapping, whatever
    stands around it: the characters of a mapping are their own mappings, a
    white space character is its own mapping and no other mapping has one,
    and no mapping has a letter of a-z.  On ASCII text the two are
    [Str.trim] and [Str.toUpperCase]. *)
Record Laws (trim toUpperCase : string -> string) : Prop := {
  trim_trim : forall s, trim (trim s) = trim s;
  upper_upper : forall s, toUpperCase (toUpperCase s) = toUpperCase s;
  trim_upper : forall s, trim (toUpperCase s) = toUpperCase (trim s);
  upper_no_lower : forall s, Str.hasLower (toUpperCase s) = false;
  on_ascii : forall s, Str.isAscii s = true ->
               trim s = Str.trim s /\ toUpperCase s = Str.toUpperCase s
}.

(** [normalizeName] *)
Definition normalizeName (trim toUpperCase : string -> string) (v : value)
  : completion (option string) :=
  match v with
  | Some j =>
      if negb (JS.truthy v) then Returned None
      else
        s ← JS.toString j;
        let normalized := toUpperCase (trim s) in
        if truthyS (COMMUNE_SPELLING_VARIANTS !! normalized)
        then Returned (COMMUNE_SPELLING_VARIANTS !! normalized)
        else Returned (Some normalized)
  | None => Returned None
  end.

(** [extractCommuneFromSourceFile] *)
Definition extractCommuneFromSourceFile (toUpperCase : string -> string)
    (sourceFile : value) : completion (option string) :=
  match sourceFile with
  | Some j =>
      if negb (JS.truthy sourceFile) then Returned None
      else
        s ← JS.toString j;
        let normalized := toUpperCase s in
        match find (fun commune => Str.includes normalized commune)
                   OFFICIAL_COMMUNES with
        | Some commune => Returned (Some commune)
        | None =>
            Returned
              (find (fun commune =>
                       Str.includes normalized (Str.replaceSpaces commune))
                    OFFICIAL_COMMUNES)
        end
  | None => Returned None
  end.

Definition extractCommune (trim toUpperCase : string -> string)
    (protoCommune : option string) (props : json)
  : completion (option string) :=
  commune ← normalizeName trim toUpperCase (directValue protoCommune props);
  if negb (truthyS commune) && JS.truthy (read protoCommune props "source_file")
  then extractCommuneFromSourceFile toUpperCase
         (read protoCommune props "source_file")
  else Returned commune.

Definition resolveFeature (trim toUpperCase : string -> string)
    (protoCommune : option string) (feat : json)
  : completion (json * option string * option string) :=
  match feat with
  | JNull => Thrown TypeError
  | _ =>
      let props :=
        match read protoCommune feat "properties" with
        | Some p => if JS.truthy (Some p) then p else JObj []
        | None => JObj []
        end in
      num ← findNumParcel protoCommune props;
      com ← extractCommune trim toUpperCase protoCommune props;
      Returned (props, num, com)
  end.

Definition processFeature (trim toUpperCase : string -> string)
    (st : State) (feat : json) : completion State :=
  '(props, num, com) ← resolveFeature trim toUpperCase (polluted st) feat;
  match num with
  | Some n => if truthyS num then Returned (storeSighting st n com props)
              else Returned st
  | None => Returned st
  end.

Fixpoint processFeatures (trim toUpperCase : string -> string)
    (st : State) (features : list json) : completion State :=
  match features with
  | [] => Returned st
  | feat :: rest =>
      st' ← processFeature trim toUpperCase st feat;
      processFeatures trim toUpperCase st' rest
  end.

Definition processFile (trim toUpperCase : string -> string)
    (st : State) (f : parsed) : completion State :=
  match f with
  | SyntaxError => Returned st
  | Document JNull => Thrown TypeError
  | Document gj =>
      let features :=
        match read (polluted st) gj "features" with
        | Some fs => if JS.truthy (Some fs) then fs else JArr []
        | None => JArr []
        end in
      features ← iterate features;
      processFeatures trim toUpperCase st features
  end.

Fixpoint processFiles (trim toUpperCase : string -> string)
    (st : State) (files : list parsed) : completion State :=
  match files with
  | [] => Returned st
  | f :: rest =>
      st' ← processFile trim toUpperCase st f;
      processFiles trim toUpperCase st' rest
  end.

Definition main (trim toUpperCase : string -> string) (files : list parsed)
  : completion State :=
  processFiles trim toUpperCase initialState files.

End Builtins.

(** A canonical name: trimming and upper-casing leave it as it is, and it has
    no letter of a-z. *)
Definition canonical (trim toUpperCase : string -> string) (c : string)
  : Prop :=
  trim c = c /\ toUpperCase c = c /\ Str.hasLower c = false.

(** Every record of the parcel lookup has a commune that is null, or a
    non-empty string that satisfies [P]. *)
Definition communesAre (P : string -> Prop) (st : State) : Prop :=
  forall n r c, numParcelMap st !! n = Some r -> commune r = Some c ->
                c <> "" /\ P c.

(** A file whose first and third features have the identifier [__proto__],
    with two communes, and whose other features have no commune field. *)
Definition protoTwiceFile : parsed :=
  Document (JObj [("features", JArr [
    JObj [("properties",
           JObj [("Num_parcel", JStr "__proto__"); ("commune", JStr "KOAR")])];
    JObj [("properties", JObj [("Num_parcel", JStr "B7")])];
    JObj [("properties",
           JObj [("Num_parcel", JStr "__proto__"); ("commune", JStr "BALA")])];
    JObj [("properties", JObj [("Num_parcel", JStr "B8")])] ])]).

(** * Properties *)

Lemma Returned_inj {A} (a b : A) : Returned a = Returned b -> a = b.
Proof. by intros [= ->]. Qed.

(** ** Properties of the string functions *)

Section StringFacts.
Import Str.

Lemma upperChar_idem c : upperChar (upperChar c) = upperChar c.
Proof. destruct c as [[] [] [] [] [] [] [] []]; reflexivity. Qed.

Lemma isWhiteSpace_upperChar c : isWhiteSpace (upperChar c) = isWhiteSpace c.
Proof. destruct c as [[] [] [] [] [] [] [] []]; reflexivity. Qed.

Lemma isLower_upperChar c : isLower (upperChar c) = false.
Proof. destruct c as [[] [] [] [] [] [] [] []]; reflexivity. Qed.

Lemma toUpperCase_idem s : toUpperCase (toUpperCase s) = toUpperCase s.
Proof.
  induction s as [|c s IH]; simpl; [done|]. by rewrite upperChar_idem, IH.
Qed.

Lemma hasLower_toUpperCase s : hasLower (toUpperCase s) = false.
Proof.
  induction s as [|c s IH]; simpl; [done|].
  by rewrite isLower_upperChar, IH.
Qed.

Lemma trimStart_toUpperCase s :
  trimStart (toUpperCase s) = toUpperCase (trimStart s).
Proof.
  induction s as [|c s IH]; simpl; [done|].
  rewrite isWhiteSpace_upperChar. by destruct (isWhiteSpace c).
Qed.

Lemma toUpperCase_empty s : toUpperCase s = "" -> s = "".
Proof. by destruct s. Qed.

Lemma trimEnd_toUpperCase s :
  trimEnd (toUpperCase s) = toUpperCase (trimEnd s).
Proof.
  induction s as [|c s IH]; simpl; [done|].
  rewrite IH, isWhiteSpace_upperChar.
  destruct (trimEnd s) as [|d r]; simpl; [|done].
  by destruct (isWhiteSpace c).
Qed.

Lemma trim_toUpperCase s : trim (toUpperCase s) = toUpperCase (trim s).
Proof. unfold trim. by rewrite trimStart_toUpperCase, trimEnd_toUpperCase. Qed.

Lemma trimEnd_idem s : trimEnd (trimEnd s) = trimEnd s.
Proof.
  induction s as [|c s IH]; simpl; [done|].
  destruct (trimEnd s) as [|d r] eqn:E.
  - destruct (isWhiteSpace c) eqn:W; simpl; [done|]. by rewrite W.
  - simpl in *. by rewrite IH.
Qed.

(** A string that starts with no white space keeps its head under
    [trimEnd], so [trimStart] leaves the result alone. *)
Lemma trimStart_trimEnd_head c s :
  isWhiteSpace c = false ->
  trimStart (trimEnd (String c s)) = trimEnd (String c s).
Proof.
  intros W. simpl. destruct (trimEnd s); rewrite ?W; simpl; by rewrite W.
Qed.

Lemma trimStart_cases s :
  trimStart s = "" \/
  exists c r, trimStart s = String c r /\ isWhiteSpace c = false.
Proof.
  induction s as [|c s IH]; simpl; [by left|].
  destruct (isWhiteSpace c) eqn:W; [exact IH|]. right. eauto.
Qed.

Lemma trim_idem s : trim (trim s) = trim s.
Proof.
  unfold trim. destruct (trimStart_cases s) as [->|(c & r & -> & W)].
  - reflexivity.
  - rewrite (trimStart_trimEnd_head c r W). apply trimEnd_idem.
Qed.

(** What [normalizeName] does to a string is stable under repetition. *)
Lemma normalize_stable s :
  toUpperCase (trim (toUpperCase (trim s))) = toUpperCase (trim s).
Proof. by rewrite trim_toUpperCase, trim_idem, toUpperCase_idem. Qed.

End StringFacts.

(** ** The Name Canonicalizer *)

Lemma variants_lookup k :
  COMMUNE_SPELLING_VARIANTS !! k =
    if decide (k = "DINDEFELLO") then Some "DINDEFELO"
    else if decide (k = "FONGOLEMBI") then Some "FONGOLIMBI"
    else None.
Proof.
  unfold COMMUNE_SPELLING_VARIANTS.
  rewrite !lookup_insert, lookup_empty.
  repeat case_decide; congruence.
Qed.

Lemma normalizeName_truthy j s :
  JS.truthy (Some j) = true -> JS.toString j = Returned s ->
  normalizeName (Some j)
  = Returned (Some (canonicalOf (Str.toUpperCase (Str.trim s)))).
Proof.
  intros T S. unfold normalizeName. rewrite T, S. simpl.
  unfold canonicalOf. rewrite variants_lookup.
  by repeat case_decide.
Qed.

Lemma normalizeName_falsy v :
  JS.truthy v = false -> normalizeName v = Returned None.
Proof. intros T. unfold normalizeName. destruct v; [|done]. by rewrite T. Qed.

Lemma normalizeName_throws j e :
  JS.truthy (Some j) = true -> JS.toString j = Thrown e ->
  normalizeName (Some j) = Thrown e.
Proof. intros T S. unfold normalizeName. by rewrite T, S. Qed.

(** A result of [normalizeName] comes from a truthy value. *)
Lemma normalizeName_Some v r :
  normalizeName v = Returned (Some r) ->
  exists j s, v = Some j /\ JS.truthy v = true /\ JS.toString j = Returned s /\
              r = canonicalOf (Str.toUpperCase (Str.trim s)).
Proof.
  intros H. destruct v as [j|]; [|done].
  destruct (JS.truthy (Some j)) eqn:T.
  - destruct (JS.toString j) as [s|e] eqn:S.
    + rewrite (normalizeName_truthy j s T S) in H. exists j, s. naive_solver.
    + by rewrite (normalizeName_throws j e T S) in H.
  - by rewrite normalizeName_falsy in H.
Qed.

Lemma toString_scalar j :
  isScalar (Some j) = true -> exists s, JS.toString j = Returned s.
Proof. destruct j as [|[]| | | |]; simpl; intros; try done; eauto. Qed.

Lemma falsy_scalar v :
  isScalar v = true ->
  (JS.truthy v = false <->
   (v = undefined \/ v = Some JNull \/ v = Some (JBool false) \/
    v = Some (JNum (NInt 0)) \/ v = Some (JStr ""))).
Proof.
  intros Sc. split.
  - destruct v as [[|[]|[z|]|[|]| |]|]; simpl in *; try done; eauto 6.
    intros E. apply negb_false_iff, Z.eqb_eq in E. subst. eauto 6.
  - intros [->|[->|[->|[->| ->]]]]; reflexivity.
Qed.

(** No name of [Object.prototype], and not [commune] either, is written in
    upper case. *)
Lemma inherited_name_hasLower s :
  s ∈ JS.prototypeNames \/ s = "commune" -> Str.hasLower s = true.
Proof.
  intros [H| ->]; [|reflexivity].
  unfold JS.prototypeNames in H.
  repeat (apply elem_of_cons in H as [->|H]; [reflexivity|]).
  by apply elem_of_nil in H.
Qed.

Lemma toUpperCase_not_inherited s :
  (Str.toUpperCase s ∉ JS.prototypeNames) /\ Str.toUpperCase s <> "commune".
Proof.
  pose proof (hasLower_toUpperCase s) as L.
  split; intros H.
  - rewrite inherited_name_hasLower in L by auto. done.
  - rewrite inherited_name_hasLower in L by auto. done.
Qed.

Lemma official_no_lower c : c ∈ OFFICIAL_COMMUNES -> Str.hasLower c = false.
Proof.
  unfold OFFICIAL_COMMUNES. intros H.
  repeat (apply elem_of_cons in H as [->|H]; [reflexivity|]).
  by apply elem_of_nil in H.
Qed.

Lemma canonicalOf_no_lower n :
  Str.hasLower n = false -> Str.hasLower (canonicalOf n) = false.
Proof.
  intros L. unfold canonicalOf. rewrite variants_lookup.
  repeat case_decide; simpl; done.
Qed.

Lemma normalizeName_no_lower v r :
  normalizeName v = Returned (Some r) -> Str.hasLower r = false.
Proof.
  intros (j & s & _ & _ & _ & ->)%normalizeName_Some.
  apply canonicalOf_no_lower, hasLower_toUpperCase.
Qed.

(** C6, as amended.  [normalizeName] returns null exactly when its argument is
    falsy, which for a scalar means: undefined, null, false, zero or the empty
    string.  For every truthy scalar it returns a string, the canonical form
    of the argument's string, trimmed and upper-cased. *)
Theorem normalizeName_scalar (v : value) :
  isScalar v = true ->
  (normalizeName v = Returned None <->
   (v = undefined \/ v = Some JNull \/ v = Some (JBool false) \/
    v = Some (JNum (NInt 0)) \/ v = Some (JStr ""))) /\
  (JS.truthy v = true ->
   exists j s, v = Some j /\ JS.toString j = Returned s /\
     normalizeName v
     = Returned (Some (canonicalOf (Str.toUpperCase (Str.trim s))))).
Proof.
  intros Sc. split.
  - rewrite <- (falsy_scalar v Sc). split.
    + intros N. destruct (JS.truthy v) eqn:T; [|done].
      destruct v as [j|]; [|done].
      destruct (toString_scalar j Sc) as [s S].
      by rewrite (normalizeName_truthy j s T S) in N.
    + apply normalizeName_falsy.
  - intros T. destruct v as [j|]; [|done].
    destruct (toString_scalar j Sc) as [s S].
    exists j, s. split; [done|]. split; [done|].
    by apply normalizeName_truthy.
Qed.

(** The number 42 is canonicalized to the string of its digits. *)
Lemma normalizeName_scalar_witness :
  exists j s, Some (JNum (NInt 42)) = Some j /\ JS.toString j = Returned s /\
    normalizeName (Some (JNum (NInt 42)))
    = Returned (Some (canonicalOf (Str.toUpperCase (Str.trim s)))).
Proof.
  apply (normalizeName_scalar (Some (JNum (NInt 42)))); reflexivity.
Defined.

(** C6 as stated fails at the boolean [false] (and at the number zero): they
    are neither null, nor empty, nor undefined, and the result is null. *)
Lemma normalizeName_false_is_null :
  normalizeName (Some (JBool false)) = Returned None /\
  normalizeName (Some (JNum (NInt 0))) = Returned None /\
  isScalar (Some (JBool false)) = true /\
  Some (JBool false) <> undefined /\
  Some (JBool false) <> Some JNull /\
  Some (JBool false) <> Some (JStr "").
Proof. repeat split; done. Qed.

(** C7 as stated fails at a string of blanks: its canonical form is the empty
    string, a result that is not null, and canonicalizing the empty string
    gives null. *)
Lemma normalizeName_blank_not_idempotent :
  normalizeName (Some (JStr "   ")) = Returned (Some "") /\
  normalizeName (Some (JStr "")) = Returned None /\
  Returned (A := option string) None <> Returned (Some "").
Proof. repeat split; done. Qed.

(** ** The Commune Extractor *)

Lemma find_FirstIn p l c : find p l = Some c <-> FirstIn p l c.
Proof.
  induction l as [|x l IH]; simpl.
  - split; [done|]. intros (pre & post & E & _). by destruct pre.
  - destruct (p x) eqn:Px.
    + split.
      * intros [= ->]. exists [], l. split; [done|]. split; [done|].
        intros y Hy. by apply elem_of_nil in Hy.
      * intros (pre & post & E & Pc & Hpre). destruct pre as [|y pre].
        -- by injection E as -> _.
        -- injection E as -> _. rewrite Hpre in Px; [done|]. apply elem_of_cons; auto.
    + rewrite IH. split.
      * intros (pre & post & -> & Pc & Hpre). exists (x :: pre), post.
        split; [done|]. split; [done|].
        intros y [->|Hy]%elem_of_cons; auto.
      * intros (pre & post & E & Pc & Hpre). destruct pre as [|y pre].
        -- injection E as -> _. congruence.
        -- injection E as -> ->. exists pre, post. split; [done|]. split; [done|].
           intros z Hz. apply Hpre, elem_of_cons. auto.
Qed.

Lemma find_None_all p (l : list string) :
  find p l = None <-> forall x, x ∈ l -> p x = false.
Proof.
  induction l as [|x l IH]; simpl.
  - split; [|done]. intros _ y Hy. by apply elem_of_nil in Hy.
  - destruct (p x) eqn:Px.
    + split; [done|]. intros H. rewrite H in Px; [done|]. apply elem_of_cons; auto.
    + rewrite IH. split.
      * intros H y [->|Hy]%elem_of_cons; auto.
      * intros H y Hy. apply H, elem_of_cons. auto.
Qed.

(** The chain of [||] over the direct fields, as a left fold. *)
Lemma directValue_fold protoCommune props :
  directValue protoCommune props
  = foldl JS.or undefined (read protoCommune props <$> directFields).
Proof. reflexivity. Qed.

Lemma or_chain_truthy (a : value) (l : list value) :
  JS.truthy a = true -> foldl JS.or a l = a.
Proof.
  intros T. induction l as [|x l IH]; simpl; [done|].
  unfold JS.or at 2. by rewrite T.
Qed.

Lemma or_chain_first (a : value) (pre : list value) (v : value) post :
  JS.truthy a = false ->
  (forall x, x ∈ pre -> JS.truthy x = false) ->
  JS.truthy v = true ->
  foldl JS.or a (pre ++ v :: post) = v.
Proof.
  revert a. induction pre as [|x pre IH]; intros a Ta Hpre Tv; simpl.
  - unfold JS.or at 2. rewrite Ta. by apply or_chain_truthy.
  - unfold JS.or at 2. rewrite Ta. apply IH; [|intros y Hy|done].
    + apply Hpre, elem_of_cons. auto.
    + apply Hpre, elem_of_cons. auto.
Qed.

Lemma or_chain_falsy (a : value) (l : list value) :
  JS.truthy a = false ->
  (forall x, x ∈ l -> JS.truthy x = false) ->
  JS.truthy (foldl JS.or a l) = false.
Proof.
  revert a. induction l as [|x l IH]; intros a Ta Hl; simpl; [done|].
  unfold JS.or at 2. rewrite Ta. apply IH.
  - apply Hl, elem_of_cons. auto.
  - intros y Hy. apply Hl, elem_of_cons. auto.
Qed.

(** The value canonicalized is the first direct field that reads truthy. *)
Lemma directValue_first protoCommune props pre k post :
  directFields = pre ++ k :: post ->
  (forall k', k' ∈ pre -> JS.truthy (read protoCommune props k') = false) ->
  JS.truthy (read protoCommune props k) = true ->
  directValue protoCommune props = read protoCommune props k.
Proof.
  intros E Hpre Tk. rewrite directValue_fold, E, fmap_app, fmap_cons.
  apply or_chain_first; [done| |done].
  intros x (k' & -> & Hk')%list_elem_of_fmap. auto.
Qed.

Lemma directValue_none protoCommune props :
  (forall k, k ∈ directFields -> JS.truthy (read protoCommune props k) = false) ->
  JS.truthy (directValue protoCommune props) = false.
Proof.
  intros H. rewrite directValue_fold. apply or_chain_falsy; [done|].
  intros x (k' & -> & Hk')%list_elem_of_fmap. auto.
Qed.

Lemma extractCommuneFromSourceFile_string s :
  s <> "" ->
  extractCommuneFromSourceFile (Some (JStr s))
  = Returned
      (match find (fun c => Str.includes (Str.toUpperCase s) c)
                  OFFICIAL_COMMUNES with
       | Some c => Some c
       | None => find (fun c => Str.includes (Str.toUpperCase s)
                                             (Str.replaceSpaces c))
                      OFFICIAL_COMMUNES
       end).
Proof.
  intros Hs. unfold extractCommuneFromSourceFile.
  replace (JS.truthy (Some (JStr s))) with true by (by destruct s).
  cbn [negb JS.toString mbind completion_bind].
  by destruct (find (fun c => Str.includes _ c) OFFICIAL_COMMUNES).
Qed.

(** The hint only ever names an official commune. *)
Lemma extractCommuneFromSourceFile_official v c :
  extractCommuneFromSourceFile v = Returned (Some c) -> c ∈ OFFICIAL_COMMUNES.
Proof.
  unfold extractCommuneFromSourceFile. destruct v as [j|]; [|done].
  destruct (JS.truthy (Some j)); [|done]. cbn [negb].
  destruct (JS.toString j) as [s|e]; [|done].
  cbn [mbind completion_bind].
  destruct (find (fun c => Str.includes _ c) OFFICIAL_COMMUNES) as [c'|] eqn:F1.
  - intros [= ->]. apply find_FirstIn in F1 as (pre & post & E & _).
    rewrite E. set_solver.
  - intros F2%Returned_inj. apply find_FirstIn in F2 as (pre & post & E & _).
    rewrite E. set_solver.
Qed.

(** C8, as amended.  When the first direct field that reads truthy, in the
    order commune, CCRCA, CCRCA_1, CAV, Nom, name, has a canonical form that
    is not the empty string, that form is the commune, whatever [source_file]
    holds.  When no direct field reads truthy, the commune is what the
    [source_file] hint gives, and null when there is no hint.  The result
    differs from the canonical form of the direct fields only when that form
    is null or empty and [source_file] is truthy.  The hint gives the first
    official commune, in registry order, whose name occurs in the upper-cased
    hint, and when no name occurs, the first whose name with underscores for
    spaces does.  The file name unjoined_parcels_SINTHIOU_MALEME.geojson gives
    SINTHIOU MALEME. *)
Theorem extractCommune_priority (protoCommune : option string) (props : json) :
  (forall pre k post r,
     directFields = pre ++ k :: post ->
     (forall k', k' ∈ pre -> JS.truthy (read protoCommune props k') = false) ->
     JS.truthy (read protoCommune props k) = true ->
     normalizeName (read protoCommune props k) = Returned (Some r) ->
     r <> "" ->
     extractCommune protoCommune props = Returned (Some r)) /\
  ((forall k, k ∈ directFields -> JS.truthy (read protoCommune props k) = false) ->
   extractCommune protoCommune props
   = if JS.truthy (read protoCommune props "source_file")
     then extractCommuneFromSourceFile (read protoCommune props "source_file")
     else Returned None) /\
  (forall com,
     normalizeName (directValue protoCommune props) = Returned com ->
     extractCommune protoCommune props <> Returned com ->
     truthyS com = false /\
     JS.truthy (read protoCommune props "source_file") = true /\
     extractCommune protoCommune props
     = extractCommuneFromSourceFile (read protoCommune props "source_file")) /\
  (forall s c, s <> "" ->
     extractCommuneFromSourceFile (Some (JStr s)) = Returned (Some c) <->
     (FirstIn (fun x => Str.includes (Str.toUpperCase s) x) OFFICIAL_COMMUNES c
      \/ ((forall x, x ∈ OFFICIAL_COMMUNES ->
             Str.includes (Str.toUpperCase s) x = false) /\
          FirstIn (fun x => Str.includes (Str.toUpperCase s)
                                         (Str.replaceSpaces x))
                  OFFICIAL_COMMUNES c))) /\
  extractCommune None
    (JObj [("source_file", JStr "unjoined_parcels_SINTHIOU_MALEME.geojson");
           ("Num_parcel", JStr "C3")])
  = Returned (Some "SINTHIOU MALEME").
Proof.
  split; [|split; [|split; [|split]]].
  - intros pre k post r E Hpre Tk N Hr.
    unfold extractCommune.
    rewrite (directValue_first protoCommune props pre k post E Hpre Tk), N.
    cbn [mbind completion_bind].
    replace (truthyS (Some r)) with true by (by destruct r).
    reflexivity.
  - intros H. unfold extractCommune.
    rewrite (normalizeName_falsy _ (directValue_none protoCommune props H)).
    cbn [mbind completion_bind truthyS negb andb].
    by destruct (JS.truthy (read protoCommune props "source_file")).
  - intros com N D. unfold extractCommune in *. rewrite N in *.
    cbn [mbind completion_bind] in *.
    destruct (truthyS com); [done|].
    destruct (JS.truthy (read protoCommune props "source_file")); [done|done].
  - intros s c Hs. rewrite (extractCommuneFromSourceFile_string s Hs).
    destruct (find (fun x => Str.includes _ x) OFFICIAL_COMMUNES) as [c'|] eqn:F1.
    + split.
      * intros [= ->]%Returned_inj. left. by apply find_FirstIn.
      * intros [F|[N _]].
        -- apply find_FirstIn in F.
           assert (Some c' = Some c) as [= ->]
               by exact (eq_trans (eq_sym F1) F).
           reflexivity.
        -- apply find_None_all in N.
           by assert (Some c' = None) by exact (eq_trans (eq_sym F1) N).
    + split.
      * intros F2%Returned_inj. right. split.
        -- by apply find_None_all.
        -- by apply find_FirstIn.
      * intros [F|[_ F]].
        -- apply find_FirstIn in F.
           by assert (@None string = Some c) by exact (eq_trans (eq_sym F1) F).
        -- apply find_FirstIn in F. by rewrite F.
  - reflexivity.
Qed.

(** A bag with CCRCA and a file-name hint for another commune: CCRCA wins. *)
Lemma extractCommune_priority_witness :
  extractCommune None
    (JObj [("CCRCA", JStr " koar "); ("name", JStr "x");
           ("source_file", JStr "unjoined_parcels_BALA.geojson")])
  = Returned (Some "KOAR").
Proof.
  apply (extractCommune_priority None
           (JObj [("CCRCA", JStr " koar "); ("name", JStr "x");
                  ("source_file", JStr "unjoined_parcels_BALA.geojson")]))
    with (pre := ["commune"]) (k := "CCRCA")
         (post := ["CCRCA_1"; "CAV"; "Nom"; "name"]).
  - reflexivity.
  - intros k' Hk'. apply list_elem_of_singleton in Hk' as ->. reflexivity.
  - reflexivity.
  - reflexivity.
  - discriminate.
Defined.

(** C8 as stated fails at a bag whose [commune] is a blank string: the field
    is present and truthy, its canonical form is the empty string, and the
    commune comes from the [source_file] hint. *)
Lemma extractCommune_blank_field_falls_back :
  let props := JObj [("commune", JStr " ");
                     ("source_file", JStr "parcels_KOAR.geojson")] in
  JS.truthy (read None props "commune") = true /\
  normalizeName (read None props "commune") = Returned (Some "") /\
  extractCommune None props = Returned (Some "KOAR") /\
  extractCommuneFromSourceFile (read None props "source_file")
  = Returned (Some "KOAR").
Proof. repeat split; reflexivity. Qed.

(** ** A run as a fold over its sightings *)

Lemma processFeature_sighted st feat :
  processFeature st feat
  = r ← resolveFeature (polluted st) feat;
    Returned (match sighted r with
              | Some s => applySighting st s
              | None => st
              end).
Proof.
  unfold processFeature.
  destruct (resolveFeature _ _) as [[[props num] com]|e]; [|done].
  cbn [mbind completion_bind sighted]. destruct num as [n|]; [|done].
  by destruct (truthyS (Some n)).
Qed.

Lemma processFeatures_fold st features st' :
  processFeatures st features = Returned st' ->
  exists tr, featureSightings st features = Returned tr /\
             st' = foldl applySighting st tr.
Proof.
  revert st. induction features as [|feat rest IH]; intros st H; simpl in *.
  - injection H as <-. by exists [].
  - destruct (processFeature st feat) as [st1|e] eqn:P; [|done].
    pose proof P as P'. rewrite processFeature_sighted in P'.
    destruct (resolveFeature (polluted st) feat) as [r|e] eqn:R; [|done].
    cbn [mbind completion_bind] in *.
    apply Returned_inj in P'.
    destruct (IH st1 H) as (tr & -> & ->).
    exists (option_list (sighted r) ++ tr). split; [done|].
    rewrite foldl_app. f_equal. rewrite <- P'. by destruct (sighted r).
Qed.

Lemma processFile_fold st f st' :
  processFile st f = Returned st' ->
  exists tr, fileSightings st f = Returned tr /\
             st' = foldl applySighting st tr.
Proof.
  destruct f as [|gj]; simpl.
  - intros [= <-]. by exists [].
  - destruct gj; try done;
      (destruct (iterate _) as [fs|e]; [|done]);
      cbn [mbind completion_bind]; apply processFeatures_fold.
Qed.

Lemma processFiles_fold st files st' :
  processFiles st files = Returned st' ->
  exists tr, runSightings st files = Returned tr /\
             st' = foldl applySighting st tr.
Proof.
  revert st. induction files as [|f rest IH]; intros st H; simpl in *.
  - injection H as <-. by exists [].
  - destruct (processFile st f) as [st1|e] eqn:P; [|done].
    destruct (processFile_fold st f st1 P) as (tr & -> & ->).
    cbn [mbind completion_bind] in *.
    destruct (IH _ H) as (tr' & -> & ->).
    exists (tr ++ tr'). split; [done|]. by rewrite foldl_app.
Qed.

Lemma processFiles_app st files1 files2 :
  processFiles st (files1 ++ files2)
  = st' ← processFiles st files1; processFiles st' files2.
Proof.
  revert st. induction files1 as [|f rest IH]; intros st; simpl; [done|].
  destruct (processFile st f) as [st1|e]; [|done].
  cbn [mbind completion_bind]. apply IH.
Qed.

(** ** The commune aggregates *)

(** [parcels.push(num)] under the cap, repeated. *)
Lemma capped_push (l xs : list string) :
  foldl (fun l x => if (length l <? 1000)%nat then l ++ [x] else l) l xs
  = l ++ take (1000 - length l) xs.
Proof.
  revert l. induction xs as [|x xs IH]; intros l; simpl.
  - by rewrite take_nil, app_nil_r.
  - destruct (Nat.ltb_spec (length l) 1000) as [Lt|Ge].
    + rewrite IH, length_app. simpl.
      replace (1000 - length l) with (S (1000 - (length l + 1))) by lia.
      simpl. by rewrite <- app_assoc.
    + rewrite IH. replace (1000 - length l) with 0 by lia. done.
Qed.

Lemma storeRecord_communeMap st num com props :
  communeMap (storeRecord st num com props) = communeMap st.
Proof.
  unfold storeRecord.
  destruct (numParcelMap st !! num) as [r|].
  - by destruct (negb _ && _).
  - destruct (inheritedSlotOf st num); try done.
    destruct com as [c|]; [|done]. by destruct (negb _ && _).
Qed.

Lemma countSighting_numParcelMap st num com :
  numParcelMap (countSighting st num com) = numParcelMap st.
Proof.
  unfold countSighting. destruct com as [c|]; [|done].
  destruct (truthyS (Some c)); [|done]. by destruct (communeMap st !! c).
Qed.

Lemma countSighting_builtinCommune st num com :
  builtinCommune (countSighting st num com) = builtinCommune st.
Proof.
  unfold countSighting. destruct com as [c|]; [|done].
  destruct (truthyS (Some c)); [|done]. by destruct (communeMap st !! c).
Qed.

(** One sighting, seen from the aggregate of [c]. *)
Lemma applySighting_aggregate st n com props c :
  c <> "" ->
  communeMap (applySighting st (n, com, props)) !! c
  = (fun a => if bool_decide (com = Some c)
              then {| count := count a + 1;
                      parcels := if (length (parcels a) <? 1000)%nat
                                 then parcels a ++ [n] else parcels a |}
              else a) <$> communeMap st !! c.
Proof.
  intros Hc. unfold applySighting, storeSighting, countSighting.
  destruct com as [c'|].
  2: { rewrite storeRecord_communeMap, bool_decide_eq_false_2 by done.
       by destruct (communeMap st !! c) as [[]|]. }
  destruct (truthyS (Some c')) eqn:T.
  - rewrite storeRecord_communeMap.
    destruct (communeMap st !! c') as [a'|] eqn:E; cbn [communeMap].
    + destruct (decide (c' = c)) as [->|Ne].
      * rewrite lookup_insert_eq, E. simpl.
        by rewrite bool_decide_eq_true_2.
      * rewrite lookup_insert_ne by done.
        rewrite bool_decide_eq_false_2 by congruence.
        by destruct (communeMap st !! c) as [[]|].
    + rewrite ?storeRecord_communeMap.
      destruct (decide (c' = c)) as [->|Ne].
      * by rewrite E.
      * rewrite bool_decide_eq_false_2 by congruence.
        by destruct (communeMap st !! c) as [[]|].
  - assert (c' = "") as -> by (by destruct c').
    rewrite storeRecord_communeMap, bool_decide_eq_false_2 by congruence.
    by destruct (communeMap st !! c) as [[]|].
Qed.

(** All sightings of a run, seen from the aggregate of [c]: every sighting
    attributed to [c] is counted, and its identifier is kept while there is
    room. *)
Lemma fold_aggregate tr st c :
  c <> "" ->
  communeMap (foldl applySighting st tr) !! c
  = (fun a => {| count := count a + length (attributed c tr);
                 parcels := parcels a
                            ++ take (1000 - length (parcels a))
                                    (attributed c tr) |})
    <$> communeMap st !! c.
Proof.
  intros Hc. revert st. induction tr as [|[[n com] props] tr IH]; intros st.
  - simpl. destruct (communeMap st !! c) as [[k l]|]; [|done]. simpl.
    by rewrite take_nil, app_nil_r, Nat.add_0_r.
  - cbn [foldl]. rewrite IH, applySighting_aggregate by done.
    destruct (communeMap st !! c) as [[k l]|]; [|done].
    unfold attributed. cbn [fmap option_fmap option_map omap list_omap].
    destruct (bool_decide (com = Some c)); cbn [count parcels length]; [|done].
    f_equal. f_equal; [lia|].
    rewrite <- (capped_push (if (length l <? 1000)%nat then l ++ [n] else l)).
    rewrite <- (capped_push l). reflexivity.
Qed.

Lemma initial_aggregates c :
  communeMap initialState !! c
  = if bool_decide (c ∈ OFFICIAL_COMMUNES)
    then Some {| count := 0; parcels := [] |} else None.
Proof.
  unfold initialState. cbn [communeMap].
  assert (forall (l : list string) (m : gmap string Aggregate),
    foldl (fun m commune => <[commune := {| count := 0; parcels := [] |}]> m)
          m l !! c
    = if bool_decide (c ∈ l) then Some {| count := 0; parcels := [] |}
      else m !! c) as G.
  { induction l as [|x l IH]; intros m; simpl; [done|].
    rewrite IH. destruct (decide (c = x)) as [->|Ne].
    - rewrite lookup_insert_eq.
      rewrite (bool_decide_eq_true_2 (x ∈ x :: l)) by (apply elem_of_cons; by left).
      by case_bool_decide.
    - rewrite lookup_insert_ne by done.
      destruct (decide (c ∈ l)) as [In|Out].
      + rewrite (bool_decide_eq_true_2 (c ∈ l)) by done.
        rewrite (bool_decide_eq_true_2 (c ∈ x :: l)); [done|].
        apply elem_of_cons. by right.
      + rewrite (bool_decide_eq_false_2 (c ∈ l)) by done.
        rewrite (bool_decide_eq_false_2 (c ∈ x :: l)); [done|].
        by intros [?|?]%elem_of_cons. }
  by rewrite G, lookup_empty.
Qed.

Lemma official_nonempty c : c ∈ OFFICIAL_COMMUNES -> c <> "".
Proof.
  intros H ->. unfold OFFICIAL_COMMUNES in H.
  repeat (apply elem_of_cons in H as [E|H]; [discriminate E|]).
  by apply elem_of_nil in H.
Qed.

(** A sighting adds no key to the aggregates. *)
Lemma applySighting_no_new_key st s c :
  communeMap st !! c = None -> communeMap (applySighting st s) !! c = None.
Proof.
  destruct s as [[n com] props]. intros N.
  unfold applySighting, storeSighting, countSighting.
  destruct com as [c'|]; [|by rewrite storeRecord_communeMap].
  destruct (truthyS (Some c')); [|by rewrite storeRecord_communeMap].
  rewrite storeRecord_communeMap.
  destruct (communeMap st !! c') as [a|] eqn:E; cbn [communeMap].
  - rewrite lookup_insert_ne; [done|congruence].
  - by rewrite ?storeRecord_communeMap.
Qed.

Lemma fold_no_new_key tr st c :
  communeMap st !! c = None ->
  communeMap (foldl applySighting st tr) !! c = None.
Proof.
  revert st. induction tr as [|s tr IH]; intros st N; simpl; [done|].
  by apply IH, applySighting_no_new_key.
Qed.

(** The aggregates at the end of a run, from the sightings of the run. *)
Lemma run_aggregates files st' :
  main files = Returned st' ->
  exists tr,
    runSightings initialState files = Returned tr /\
    st' = foldl applySighting initialState tr /\
    forall c,
      communeMap st' !! c
      = if bool_decide (c ∈ OFFICIAL_COMMUNES)
        then Some {| count := length (attributed c tr);
                     parcels := take 1000 (attributed c tr) |}
        else None.
Proof.
  intros H. apply processFiles_fold in H as (tr & Htr & ->).
  exists tr. split; [done|]. split; [done|]. intros c.
  case_bool_decide as Hc.
  - rewrite fold_aggregate by (by apply official_nonempty).
    rewrite initial_aggregates, bool_decide_eq_true_2 by done.
    cbn [fmap option_fmap option_map count parcels length app].
    by rewrite Nat.sub_0_r.
  - apply fold_no_new_key.
    by rewrite initial_aggregates, bool_decide_eq_false_2.
Qed.

Lemma main_nil : main [] = Returned initialState.
Proof. reflexivity. Qed.

(** C2.  Whatever the files of a run, the commune lookup it writes has an
    entry for each of the 17 official communes, and the entry of a commune to
    which no sighting of the run is attributed is [{count: 0, parcels: []}].
    The run over no file at all returns, with all entries of that form. *)
Theorem every_official_commune_has_an_entry :
  length OFFICIAL_COMMUNES = 17 /\
  (forall c, c ∈ OFFICIAL_COMMUNES ->
     communeMap initialState !! c = Some {| count := 0; parcels := [] |}) /\
  main [] = Returned initialState /\
  forall files st',
    main files = Returned st' ->
    exists tr,
      runSightings initialState files = Returned tr /\
      forall c, c ∈ OFFICIAL_COMMUNES ->
        is_Some (communeMap st' !! c) /\
        (attributed c tr = [] ->
         communeMap st' !! c = Some {| count := 0; parcels := [] |}).
Proof.
  split; [reflexivity|]. split; [|split; [reflexivity|]].
  - intros c Hc. by rewrite initial_aggregates, bool_decide_eq_true_2.
  - intros files st' H.
    destruct (run_aggregates files st' H) as (tr & Htr & _ & Agg).
    exists tr. split; [done|]. intros c Hc.
    rewrite Agg, bool_decide_eq_true_2 by done. split; [by eexists|].
    by intros ->.
Qed.

(** The scenario returns, with the three sightings listed. *)
Lemma scenario_run :
  exists st,
    main [scenarioFile] = Returned st /\
    runSightings initialState [scenarioFile] = Returned scenarioSightings.
Proof. eexists. split; vm_compute; reflexivity. Qed.

(** A file of [k] features of parcel A1 in KOAR returns, with [k] sightings
    of the one kind. *)
Lemma resolve_koarFeature p :
  resolveFeature p koarFeature
  = Returned (JObj [("Num_parcel", JStr "A1"); ("commune", JStr "Koar")],
              Some "A1", Some "KOAR").
Proof. destruct p; reflexivity. Qed.

Lemma koar_features k st :
  processFeatures st (replicate k koarFeature)
  = Returned (foldl applySighting st (replicate k koarSighting)) /\
  featureSightings st (replicate k koarFeature)
  = Returned (replicate k koarSighting).
Proof.
  revert st. induction k as [|k IH]; intros st; [done|].
  cbn [replicate processFeatures featureSightings foldl].
  rewrite processFeature_sighted, resolve_koarFeature.
  cbn [mbind completion_bind sighted truthyS Str.isEmpty negb].
  fold koarSighting.
  destruct (IH (applySighting st koarSighting)) as [-> ->]. done.
Qed.

Lemma koar_run k :
  exists st,
    main [koarFile k] = Returned st /\
    runSightings initialState [koarFile k] = Returned (replicate k koarSighting).
Proof.
  exists (foldl applySighting initialState (replicate k koarSighting)).
  unfold main, koarFile.
  cbn [processFiles runSightings processFile fileSightings].
  change (read (polluted initialState)
            (JObj [("features", JArr (replicate k koarFeature))]) "features")
    with (Some (JArr (replicate k koarFeature))).
  cbn [JS.truthy iterate mbind completion_bind].
  destruct (koar_features k initialState) as [-> ->].
  cbn [mbind completion_bind]. by rewrite app_nil_r.
Qed.

Lemma koar_attributed k :
  attributed "KOAR" (replicate k koarSighting) = replicate k "A1".
Proof. induction k as [|k IH]; [done|]. simpl. by rewrite <- IH. Qed.

Lemma official_KOAR : "KOAR" ∈ OFFICIAL_COMMUNES.
Proof.
  unfold OFFICIAL_COMMUNES. do 4 (apply elem_of_cons; right).
  apply elem_of_cons. by left.
Qed.

Lemma official_GABOU : "GABOU" ∈ OFFICIAL_COMMUNES.
Proof.
  unfold OFFICIAL_COMMUNES. apply elem_of_cons; right.
  apply elem_of_cons. by left.
Qed.

Lemma Returned_eq {A} (a b : A) (c : completion A) :
  c = Returned a -> c = Returned b -> a = b.
Proof. intros -> H. by apply Returned_inj in H. Qed.

(** The scenario, with its state as a fold and its aggregates. *)
Lemma scenario_outcome :
  exists st,
    main [scenarioFile] = Returned st /\
    runSightings initialState [scenarioFile] = Returned scenarioSightings /\
    st = foldl applySighting initialState scenarioSightings /\
    forall c,
      communeMap st !! c
      = if bool_decide (c ∈ OFFICIAL_COMMUNES)
        then Some {| count := length (attributed c scenarioSightings);
                     parcels := take 1000 (attributed c scenarioSightings) |}
        else None.
Proof.
  destruct scenario_run as (st & M & Htr).
  exists st. split; [exact M|]. split; [exact Htr|].
  destruct (run_aggregates _ _ M) as (tr & Htr' & Hst & Agg).
  assert (tr = scenarioSightings) as <- by exact (Returned_eq _ _ _ Htr' Htr).
  split; [exact Hst|exact Agg].
Qed.

(** C1.  The run over the one file of the scenario writes the parcel lookup
    with the two records A1 and B2 as stated, and a commune lookup in which
    DINDEFELO has count 1 and parcels [A1], KOAR has count 1 and parcels [B2],
    and the other 15 official communes have count 0 and no parcels. *)
Theorem scenario_lookups :
  exists st,
    main [scenarioFile] = Returned st /\
    numParcelMap st = scenarioParcels /\
    communeMap st !! "DINDEFELO" = Some {| count := 1; parcels := ["A1"] |} /\
    communeMap st !! "KOAR" = Some {| count := 1; parcels := ["B2"] |} /\
    length (filter (fun c => c <> "DINDEFELO" /\ c <> "KOAR")
                   OFFICIAL_COMMUNES) = 15 /\
    forall c,
      c <> "DINDEFELO" -> c <> "KOAR" ->
      communeMap st !! c
      = if bool_decide (c ∈ OFFICIAL_COMMUNES)
        then Some {| count := 0; parcels := [] |} else None.
Proof.
  destruct scenario_outcome as (st & M & _ & Hst & Agg).
  exists st. split; [exact M|].
  split; [|split; [|split; [|split]]].
  - rewrite Hst. vm_compute. reflexivity.
  - rewrite Agg. reflexivity.
  - rewrite Agg. reflexivity.
  - reflexivity.
  - intros c N1 N2. rewrite Agg. case_bool_decide; [|done].
    unfold attributed, scenarioSightings. cbn [omap list_omap].
    rewrite !bool_decide_eq_false_2 by congruence. done.
Qed.

(** C2 at the scenario: GABOU is attributed nothing and has the zero entry. *)
Lemma every_official_commune_has_an_entry_witness :
  exists st',
    main [scenarioFile] = Returned st' /\
    communeMap st' !! "GABOU" = Some {| count := 0; parcels := [] |}.
Proof.
  destruct every_official_commune_has_an_entry as (_ & _ & _ & Run).
  destruct scenario_run as (st' & M & Htr).
  exists st'. split; [done|].
  destruct (Run [scenarioFile] st' M) as (tr & Htr' & Entries).
  assert (tr = scenarioSightings) as -> by exact (Returned_eq _ _ _ Htr' Htr).
  apply (Entries "GABOU" official_GABOU). reflexivity.
Defined.

(** C4.  In the commune lookup of every run, each [parcels] array has at most
    1000 entries, while [count] is the number of sightings attributed to the
    commune.  So [count] can exceed 1000: a file of 1001 features of KOAR
    gives count 1001 and 1000 parcels; and sightings of one identifier in two
    files are counted, and listed, twice. *)
Theorem parcels_capped_count_complete :
  (forall files st',
     main files = Returned st' ->
     exists tr,
       runSightings initialState files = Returned tr /\
       forall c a, communeMap st' !! c = Some a ->
         length (parcels a) <= 1000 /\
         count a = length (attributed c tr)) /\
  (exists st' a,
     main [koarFile 1001] = Returned st' /\
     communeMap st' !! "KOAR" = Some a /\
     count a = 1001 /\ length (parcels a) = 1000) /\
  (exists st',
     main [koarFile 1; koarFile 1] = Returned st' /\
     communeMap st' !! "KOAR"
     = Some {| count := 2; parcels := ["A1"; "A1"] |}).
Proof.
  split; [|split].
  - intros files st' H.
    destruct (run_aggregates files st' H) as (tr & Htr & _ & Agg).
    exists tr. split; [done|]. intros c a. rewrite Agg.
    case_bool_decide; [|done]. intros [= <-]. cbn [count parcels].
    split; [|done]. rewrite length_take. lia.
  - destruct (koar_run 1001) as (st' & M & Htr).
    destruct (run_aggregates _ _ M) as (tr & Htr' & _ & Agg).
    assert (tr = replicate 1001 koarSighting) as ->
        by exact (Returned_eq _ _ _ Htr' Htr).
    exists st'. eexists. split; [done|]. split.
    + rewrite Agg, bool_decide_eq_true_2 by exact official_KOAR. reflexivity.
    + cbn [count parcels]. rewrite koar_attributed, length_take, length_replicate.
      split; [done|]. lia.
  - eexists. split; vm_compute; reflexivity.
Qed.

(** C4 at the scenario: the bound and the count of DINDEFELO. *)
Lemma parcels_capped_count_complete_witness :
  exists st' a,
    main [scenarioFile] = Returned st' /\
    communeMap st' !! "DINDEFELO" = Some a /\
    length (parcels a) <= 1000 /\ count a = 1.
Proof.
  destruct parcels_capped_count_complete as (Run & _ & _).
  destruct scenario_outcome as (st' & M & Htr & _ & Agg).
  destruct (Run [scenarioFile] st' M) as (tr & Htr' & Bound).
  assert (tr = scenarioSightings) as -> by exact (Returned_eq _ _ _ Htr' Htr).
  specialize (Agg "DINDEFELO"). specialize (Bound "DINDEFELO" _ Agg).
  exists st'. eexists. split; [exact M|]. split; [exact Agg|]. exact Bound.
Defined.

(** C9.  A file that does not parse leaves the state as it is and the run
    going: the run is the run over the other files, and the files after it
    are processed from the state the files before it have built. *)
Theorem invalid_json_is_skipped :
  (forall st, processFile st SyntaxError = Returned st) /\
  (forall st before after,
     processFiles st (before ++ SyntaxError :: after)
     = processFiles st (before ++ after)) /\
  (forall before after,
     main (before ++ SyntaxError :: after) = main (before ++ after)) /\
  (forall before after st,
     main before = Returned st ->
     main (before ++ SyntaxError :: after) = processFiles st after).
Proof.
  assert (forall st before after,
            processFiles st (before ++ SyntaxError :: after)
            = processFiles st (before ++ after)) as Skip.
  { intros st before after. rewrite !processFiles_app.
    by destruct (processFiles st before). }
  split; [done|]. split; [exact Skip|]. split.
  - intros before after. apply Skip.
  - intros before after st H. unfold main in *.
    by rewrite Skip, processFiles_app, H.
Qed.

(** C9 at a run whose first file is corrupt: the scenario file after it
    gives what it gives alone. *)
Lemma invalid_json_is_skipped_witness :
  main ([] ++ SyntaxError :: [scenarioFile]) = main ([] ++ [scenarioFile]) /\
  main ([] ++ SyntaxError :: [scenarioFile])
  = processFiles initialState [scenarioFile].
Proof.
  destruct invalid_json_is_skipped as (_ & _ & Skip & After).
  split; [apply Skip|]. by apply After.
Defined.

(** C10.  At the end of every run, the aggregate of each official commune
    has as [count] the number of sightings attributed to the commune, and as
    [parcels] the identifiers of the first min(count, 1000) of them, in
    processing order; so the length of [parcels] is min(count, 1000). *)
Theorem count_parcels_coupling (files : list parsed) (st' : State) :
  main files = Returned st' ->
  exists tr,
    runSightings initialState files = Returned tr /\
    forall c, c ∈ OFFICIAL_COMMUNES ->
      exists a,
        communeMap st' !! c = Some a /\
        count a = length (attributed c tr) /\
        length (parcels a) = Nat.min (count a) 1000 /\
        parcels a = take (Nat.min (count a) 1000) (attributed c tr).
Proof.
  intros H. destruct (run_aggregates files st' H) as (tr & Htr & _ & Agg).
  exists tr. split; [done|]. intros c Hc.
  rewrite Agg, bool_decide_eq_true_2 by done.
  eexists. split; [done|]. cbn [count parcels].
  split; [done|]. split.
  - rewrite length_take. lia.
  - destruct (Nat.le_ge_cases (length (attributed c tr)) 1000) as [Le|Ge].
    + rewrite Nat.min_l by done. by rewrite !take_ge.
    + by rewrite Nat.min_r.
Qed.

(** C10 at the scenario, for KOAR. *)
Lemma count_parcels_coupling_witness :
  exists st' a,
    main [scenarioFile] = Returned st' /\
    communeMap st' !! "KOAR" = Some a /\
    count a = length (attributed "KOAR" scenarioSightings) /\
    parcels a = take (Nat.min (count a) 1000)
                     (attributed "KOAR" scenarioSightings).
Proof.
  destruct scenario_run as (st' & M & Htr).
  destruct (count_parcels_coupling [scenarioFile] st' M) as (tr & Htr' & Agg).
  assert (tr = scenarioSightings) as -> by exact (Returned_eq _ _ _ Htr' Htr).
  destruct (Agg "KOAR" official_KOAR) as (a & A & Cnt & _ & Par).
  exists st', a. split; [exact M|]. split; [exact A|].
  split; [exact Cnt|exact Par].
Defined.

(** ** The parcel records *)

Lemma applySighting_numParcelMap st n com props :
  numParcelMap (applySighting st (n, com, props))
  = numParcelMap (storeRecord st n com props).
Proof. apply countSighting_numParcelMap. Qed.

Lemma applySighting_builtinCommune st n com props :
  builtinCommune (applySighting st (n, com, props))
  = builtinCommune (storeRecord st n com props).
Proof. apply countSighting_builtinCommune. Qed.

(** A sighting of another identifier leaves the record of [n] alone. *)
Lemma storeRecord_other st n' com props n :
  n' <> n ->
  numParcelMap (storeRecord st n' com props) !! n = numParcelMap st !! n.
Proof.
  intros Ne. unfold storeRecord.
  destruct (numParcelMap st !! n') as [r|].
  - destruct (negb _ && _); cbn [numParcelMap]; [|done].
    by rewrite lookup_insert_ne.
  - destruct (inheritedSlotOf st n'); cbn [numParcelMap]; try done.
    + destruct com as [c|]; [|done]. by destruct (negb _ && _).
    + by rewrite lookup_insert_ne.
Qed.

(** A sighting of an identifier that has a record: the bag stays, the
    commune is filled in when it was empty. *)
Lemma storeRecord_present st n com props r :
  numParcelMap st !! n = Some r ->
  numParcelMap (storeRecord st n com props) !! n
  = Some {| commune := backfill (commune r) com; properties := properties r |}.
Proof.
  intros E. unfold storeRecord, backfill. rewrite E.
  destruct (negb _ && _); cbn [numParcelMap].
  - by rewrite lookup_insert_eq.
  - rewrite E. by destruct r.
Qed.

(** The first sighting of an identifier that names nothing inherited. *)
Lemma storeRecord_fresh st n com props :
  numParcelMap st !! n = None -> inheritedSlotOf st n = Missing ->
  numParcelMap (storeRecord st n com props) !! n
  = Some {| commune := if truthyS com then com else None;
            properties := props |}.
Proof.
  intros E I. unfold storeRecord. rewrite E, I. cbn [numParcelMap].
  by rewrite lookup_insert_eq.
Qed.

(** A sighting of an identifier that names something inherited stores no
    record. *)
Lemma storeRecord_inherited st n com props :
  numParcelMap st !! n = None -> inheritedSlotOf st n <> Missing ->
  numParcelMap (storeRecord st n com props) = numParcelMap st.
Proof.
  intros E I. unfold storeRecord. rewrite E.
  destruct (inheritedSlotOf st n); try done.
  destruct com as [c|]; [|done]. by destruct (negb _ && _).
Qed.

(** Once [Object.prototype.commune] is set, it stays as it is. *)
Lemma storeRecord_polluted st n com props :
  truthyS (polluted st) = true ->
  polluted (storeRecord st n com props) = polluted st.
Proof.
  intros T. unfold storeRecord.
  destruct (numParcelMap st !! n) as [r|].
  - by destruct (negb _ && _).
  - destruct (inheritedSlotOf st n); try done.
    destruct com as [c|]; [|done].
    destruct (decide (n = "__proto__")) as [->|Ne].
    + fold (polluted st). replace (match polluted st with
                                   | Some s => Some s
                                   | None => polluted st
                                   end) with (polluted st)
        by (by destruct (polluted st)).
      by rewrite T.
    + destruct (negb _ && _); [|done].
      unfold polluted. cbn [builtinCommune]. by rewrite lookup_insert_ne.
Qed.

Lemma inheritedSlotOf_Missing st n :
  inheritedSlotOf st n = Missing <->
  (n ∉ JS.prototypeNames) /\ (n = "commune" -> truthyS (polluted st) = false).
Proof.
  unfold inheritedSlotOf. case_bool_decide as P.
  - split; [done|]. by intros [? _].
  - destruct (String.eqb_spec n "commune") as [->|Ne]; cbn [andb].
    + destruct (truthyS (polluted st)); [|done].
      split; [done|]. intros [_ H]. by specialize (H eq_refl).
    + done.
Qed.

Lemma applySighting_inherited st s n :
  inheritedSlotOf st n <> Missing ->
  inheritedSlotOf (applySighting st s) n <> Missing.
Proof.
  destruct s as [[n' com] props].
  rewrite !inheritedSlotOf_Missing. intros H [P C]. apply H. split; [done|].
  intros ->. specialize (C eq_refl).
  destruct (truthyS (polluted st)) eqn:T; [|done].
  unfold polluted in C at 1. rewrite applySighting_builtinCommune in C.
  fold (polluted (storeRecord st n' com props)) in C.
  by rewrite storeRecord_polluted, T in C.
Qed.

Lemma fold_inherited_absent tr st n :
  numParcelMap st !! n = None -> inheritedSlotOf st n <> Missing ->
  numParcelMap (foldl applySighting st tr) !! n = None.
Proof.
  revert st. induction tr as [|[[n' com] props] tr IH]; intros st E I; [done|].
  cbn [foldl]. apply IH; [|by apply applySighting_inherited].
  rewrite applySighting_numParcelMap.
  destruct (decide (n' = n)) as [->|Ne].
  - by rewrite storeRecord_inherited.
  - by rewrite storeRecord_other.
Qed.

Lemma firstTruthy_cases coms :
  firstTruthy coms = None \/ truthyS (firstTruthy coms) = true.
Proof.
  induction coms as [|com coms IH]; simpl; [by left|].
  destruct (truthyS com) eqn:T; [by right|done].
Qed.

Lemma backfill_firstTruthy cur coms :
  backfill cur (firstTruthy coms)
  = if truthyS cur then cur
    else match firstTruthy coms with Some c => Some c | None => cur end.
Proof.
  unfold backfill. destruct (truthyS cur); cbn [negb andb]; [done|].
  destruct (firstTruthy_cases coms) as [E|E].
  - by rewrite E.
  - rewrite E. by destruct (firstTruthy coms).
Qed.

Lemma backfill_fresh com coms :
  backfill (if truthyS com then com else None) (firstTruthy coms)
  = firstTruthy (com :: coms).
Proof.
  rewrite backfill_firstTruthy. cbn [firstTruthy].
  destruct (truthyS com) eqn:T.
  - by rewrite T.
  - cbn [truthyS]. by destruct (firstTruthy coms).
Qed.

(** The record of [n], once there, through the sightings that follow. *)
Lemma fold_record_present tr st n r :
  numParcelMap st !! n = Some r ->
  numParcelMap (foldl applySighting st tr) !! n
  = Some {| commune := backfill (commune r)
                                (firstTruthy (fst <$> sightingsOf n tr));
            properties := properties r |}.
Proof.
  revert st r. induction tr as [|[[n' com] props] tr IH]; intros st r E.
  - simpl. rewrite E. unfold backfill. cbn [truthyS andb].
    rewrite andb_false_r. by destruct r.
  - cbn [foldl]. unfold sightingsOf. cbn [omap list_omap].
    fold (sightingsOf n tr).
    destruct (decide (n' = n)) as [->|Ne].
    + rewrite bool_decide_eq_true_2 by done.
      erewrite IH;
        [|by rewrite applySighting_numParcelMap, (storeRecord_present _ _ _ _ r)].
      cbn [commune properties fmap list_fmap fst firstTruthy].
      f_equal. f_equal. unfold backfill.
      destruct (truthyS (commune r)) eqn:Tr; cbn [negb andb]; [by rewrite Tr|].
      destruct (truthyS com) eqn:Tc; cbn [negb andb]; [by rewrite Tc|].
      by rewrite Tr.
    + rewrite bool_decide_eq_false_2 by done.
      apply IH. by rewrite applySighting_numParcelMap, storeRecord_other.
Qed.

(** The record of [n] at the end, when there is none at the start. *)
Lemma fold_record_absent tr st n r :
  numParcelMap st !! n = None ->
  numParcelMap (foldl applySighting st tr) !! n = Some r ->
  expectedRecord (sightingsOf n tr) = Some r.
Proof.
  revert st. induction tr as [|[[n' com] props] tr IH]; intros st E F.
  - simpl in F. congruence.
  - cbn [foldl] in F. unfold sightingsOf. cbn [omap list_omap].
    fold (sightingsOf n tr).
    destruct (decide (n' = n)) as [->|Ne].
    + rewrite bool_decide_eq_true_2 by done.
      destruct (inheritedSlotOf st n) eqn:I.
      * rewrite fold_inherited_absent in F; [done| |].
        -- by rewrite applySighting_numParcelMap, storeRecord_inherited
             by (done || congruence).
        -- apply applySighting_inherited. congruence.
      * rewrite fold_inherited_absent in F; [done| |].
        -- by rewrite applySighting_numParcelMap, storeRecord_inherited
             by (done || congruence).
        -- apply applySighting_inherited. congruence.
      * erewrite fold_record_present in F;
          [|by rewrite applySighting_numParcelMap, storeRecord_fresh].
        cbn [commune properties] in F. injection F as <-.
        cbn [expectedRecord fmap list_fmap fst].
        f_equal. f_equal. symmetry. apply backfill_fresh.
    + rewrite bool_decide_eq_false_2 by done.
      apply (IH (applySighting st (n', com, props))); [|done].
      by rewrite applySighting_numParcelMap, storeRecord_other.
Qed.

(** An identifier that names nothing inherited has the record expected. *)
Lemma fold_record_plain tr st n :
  n ∉ JS.prototypeNames -> n <> "commune" ->
  numParcelMap st !! n = None ->
  numParcelMap (foldl applySighting st tr) !! n
  = expectedRecord (sightingsOf n tr).
Proof.
  intros P C. revert st. induction tr as [|[[n' com] props] tr IH]; intros st E.
  - done.
  - cbn [foldl]. unfold sightingsOf. cbn [omap list_omap].
    fold (sightingsOf n tr).
    destruct (decide (n' = n)) as [->|Ne].
    + rewrite bool_decide_eq_true_2 by done.
      erewrite fold_record_present;
        [|rewrite applySighting_numParcelMap, storeRecord_fresh;
          [done|done|by apply inheritedSlotOf_Missing]].
      cbn [commune properties expectedRecord fmap list_fmap fst].
      f_equal. f_equal. apply backfill_fresh.
    + rewrite bool_decide_eq_false_2 by done.
      apply IH. by rewrite applySighting_numParcelMap, storeRecord_other.
Qed.

Lemma blankCommune_run :
  exists st,
    main [blankCommuneFile] = Returned st /\
    runSightings initialState [blankCommuneFile]
    = Returned blankCommuneSightings.
Proof. eexists. split; vm_compute; reflexivity. Qed.

Lemma conflict_run :
  exists st,
    main [conflictFile] = Returned st /\
    runSightings initialState [conflictFile] = Returned conflictSightings.
Proof. eexists. split; vm_compute; reflexivity. Qed.

Lemma A1_plain : ("A1" ∉ JS.prototypeNames) /\ "A1" <> "commune".
Proof.
  split; [|done]. intros H.
  by pose proof (inherited_name_hasLower "A1" (or_introl H)).
Qed.

(** The records at the end of a run, from the sightings of the run. *)
Lemma run_records files st' :
  main files = Returned st' ->
  exists tr,
    runSightings initialState files = Returned tr /\
    (forall n r, numParcelMap st' !! n = Some r ->
       expectedRecord (sightingsOf n tr) = Some r) /\
    (forall n, n ∉ JS.prototypeNames -> n <> "commune" ->
       numParcelMap st' !! n = expectedRecord (sightingsOf n tr)).
Proof.
  intros H. apply processFiles_fold in H as (tr & Htr & ->).
  exists tr. split; [exact Htr|]. split.
  - intros n r. by apply fold_record_absent.
  - intros n P C. by apply fold_record_plain.
Qed.

(** C3, as amended.  A sighting never changes the property bag of a record
    that exists, nor its commune once that is set.  At the end of a run,
    every record of the parcel lookup has the property bag of the first
    sighting of its identifier, and as commune the first one, over the
    sightings of the identifier in processing order, that is a non-empty
    string, or null when there is none.  Every identifier that is not a name
    of a member of Object.prototype, nor [commune], has this record. *)
Theorem first_sighting_wins :
  (forall st s n r,
     numParcelMap st !! n = Some r ->
     exists r',
       numParcelMap (applySighting st s) !! n = Some r' /\
       properties r' = properties r /\
       (truthyS (commune r) = true -> commune r' = commune r)) /\
  (forall files st',
     main files = Returned st' ->
     exists tr,
       runSightings initialState files = Returned tr /\
       (forall n r,
          numParcelMap st' !! n = Some r ->
          exists com props later,
            sightingsOf n tr = (com, props) :: later /\
            properties r = props /\
            commune r = firstTruthy (com :: (fst <$> later))) /\
       (forall n,
          n ∉ JS.prototypeNames -> n <> "commune" ->
          numParcelMap st' !! n = expectedRecord (sightingsOf n tr))).
Proof.
  split.
  - intros st [[n' com] props] n r E.
    rewrite applySighting_numParcelMap.
    destruct (decide (n' = n)) as [->|Ne].
    + rewrite (storeRecord_present _ _ _ _ r E). eexists. split; [done|].
      cbn [properties commune]. split; [done|].
      intros T. unfold backfill. by rewrite T.
    + rewrite storeRecord_other by done. exists r. by rewrite E.
  - intros files st' H.
    destruct (run_records files st' H) as (tr & Htr & Rec & Plain).
    exists tr. split; [exact Htr|]. split; [|exact Plain].
    intros n r E. specialize (Rec n r E). unfold expectedRecord in Rec.
    destruct (sightingsOf n tr) as [|[com props] later]; [done|].
    injection Rec as <-. by exists com, props, later.
Qed.

(** C3 at a parcel sighted twice with different communes: the record keeps
    the bag and the commune of the first sighting. *)
Lemma first_sighting_wins_witness :
  exists st',
    main [conflictFile] = Returned st' /\
    numParcelMap st' !! "A1"
    = Some {| commune := Some "KOAR";
              properties := JObj [("Num_parcel", JStr "A1");
                                  ("commune", JStr "KOAR")] |}.
Proof.
  destruct first_sighting_wins as (_ & Run).
  destruct conflict_run as (st' & M & Htr).
  destruct (Run [conflictFile] st' M) as (tr & Htr' & _ & Plain).
  assert (tr = conflictSightings) as -> by exact (Returned_eq _ _ _ Htr' Htr).
  exists st'. split; [exact M|].
  rewrite (Plain "A1" (proj1 A1_plain) (proj2 A1_plain)). reflexivity.
Defined.

(** C3 as stated fails where a later sighting resolves the empty string, a
    commune that is not null: parcel A1 is first sighted with a null commune,
    then with a blank [commune] field, and its record keeps the null. *)
Lemma blank_commune_is_not_backfilled :
  exists st',
    main [blankCommuneFile] = Returned st' /\
    runSightings initialState [blankCommuneFile]
    = Returned [ ("A1", None, JObj [("Num_parcel", JStr "A1")]);
                 ("A1", Some "",
                  JObj [("Num_parcel", JStr "A1"); ("commune", JStr " ")]) ] /\
    commune <$> numParcelMap st' !! "A1" = Some None /\
    Some "" <> @None string.
Proof.
  destruct blankCommune_run as (st' & M & Htr).
  exists st'. split; [exact M|]. split; [exact Htr|]. split; [|done].
  destruct (run_records _ _ M) as (tr & Htr' & _ & Plain).
  assert (tr = blankCommuneSightings) as ->
      by exact (Returned_eq _ _ _ Htr' Htr).
  rewrite (Plain "A1" (proj1 A1_plain) (proj2 A1_plain)). reflexivity.
Qed.

(** ** Communes outside the registry *)

Lemma officialKeys_initial : officialKeys (communeMap initialState).
Proof.
  intros c. rewrite initial_aggregates. case_bool_decide; [|split].
  - split; [done|]. by eexists.
  - by intros [? ?].
  - done.
Qed.

(** The keys of the aggregates never change. *)
Lemma applySighting_keys st s c :
  is_Some (communeMap (applySighting st s) !! c)
  <-> is_Some (communeMap st !! c).
Proof.
  destruct s as [[n com] props].
  unfold applySighting, storeSighting, countSighting.
  destruct com as [c'|]; [|by rewrite storeRecord_communeMap].
  destruct (truthyS (Some c')); [|by rewrite storeRecord_communeMap].
  rewrite storeRecord_communeMap.
  destruct (communeMap st !! c') as [a|] eqn:E; cbn [communeMap].
  - destruct (decide (c' = c)) as [->|Ne].
    + rewrite lookup_insert_eq, E. split; by eexists.
    + by rewrite lookup_insert_ne.
  - by rewrite ?storeRecord_communeMap.
Qed.

Lemma officialKeys_applySighting st s :
  officialKeys (communeMap st) ->
  officialKeys (communeMap (applySighting st s)).
Proof. intros K c. rewrite applySighting_keys. apply K. Qed.

Lemma officialKeys_fold tr st :
  officialKeys (communeMap st) ->
  officialKeys (communeMap (foldl applySighting st tr)).
Proof.
  revert st. induction tr as [|s tr IH]; intros st K; [done|].
  by apply IH, officialKeys_applySighting.
Qed.

(** Every state a run goes through, between files and between features, has
    the official communes as the keys of its aggregates. *)
Lemma officialKeys_processFeatures st features st' :
  officialKeys (communeMap st) ->
  processFeatures st features = Returned st' ->
  officialKeys (communeMap st').
Proof.
  intros K H. apply processFeatures_fold in H as (tr & _ & ->).
  by apply officialKeys_fold.
Qed.

Lemma officialKeys_processFiles st files st' :
  officialKeys (communeMap st) ->
  processFiles st files = Returned st' ->
  officialKeys (communeMap st').
Proof.
  intros K H. apply processFiles_fold in H as (tr & _ & ->).
  by apply officialKeys_fold.
Qed.

Lemma storeSighting_unofficial st n c props :
  communeMap st !! c = None ->
  communeMap (storeSighting st n (Some c) props) = communeMap st.
Proof.
  intros N. unfold storeSighting, countSighting.
  destruct (truthyS (Some c)); [|apply storeRecord_communeMap].
  rewrite storeRecord_communeMap, N. apply storeRecord_communeMap.
Qed.

Lemma ELSEWHERE_unofficial : "ELSEWHERE" ∉ OFFICIAL_COMMUNES.
Proof.
  unfold OFFICIAL_COMMUNES. intros H.
  repeat (apply elem_of_cons in H as [E|H]; [discriminate E|]).
  by apply elem_of_nil in H.
Qed.

(** C5, as amended.  In a state whose aggregates have the official communes
    as keys (every state of a run), a feature with a non-empty identifier and
    a non-empty commune that is not official changes no aggregate: the
    commune map is the same after it.  The commune is stored on the record of
    the identifier when the feature is its first sighting (for an identifier
    that is not a name of a member of Object.prototype, nor [commune]) and
    when the record it has holds no commune yet; a record that holds a
    commune keeps it. *)
Theorem unofficial_commune_not_aggregated
    (st : State) (feat props : json) (n c : string) :
  officialKeys (communeMap st) ->
  resolveFeature (polluted st) feat = Returned (props, Some n, Some c) ->
  n <> "" -> c <> "" -> c ∉ OFFICIAL_COMMUNES ->
  exists st',
    processFeature st feat = Returned st' /\
    communeMap st' = communeMap st /\
    (forall r, numParcelMap st !! n = Some r ->
       numParcelMap st' !! n
       = Some {| commune := if truthyS (commune r) then commune r else Some c;
                 properties := properties r |}) /\
    (numParcelMap st !! n = None ->
     n ∉ JS.prototypeNames -> n <> "commune" ->
     numParcelMap st' !! n
     = Some {| commune := Some c; properties := props |}).
Proof.
  intros K R Hn Hc Off.
  assert (communeMap st !! c = None) as N.
  { apply eq_None_not_Some. by rewrite (K c). }
  assert (truthyS (Some c) = true) as Tc by (by destruct c).
  exists (storeSighting st n (Some c) props). split; [|split; [|split]].
  - unfold processFeature. rewrite R. cbn [mbind completion_bind].
    by replace (truthyS (Some n)) with true by (by destruct n).
  - by apply storeSighting_unofficial.
  - intros r E.
    change (storeSighting st n (Some c) props)
      with (applySighting st (n, Some c, props)).
    rewrite applySighting_numParcelMap, (storeRecord_present _ _ _ _ r E).
    unfold backfill. rewrite Tc.
    by destruct (truthyS (commune r)).
  - intros E P C.
    change (storeSighting st n (Some c) props)
      with (applySighting st (n, Some c, props)).
    rewrite applySighting_numParcelMap, storeRecord_fresh, Tc; [done|done|].
    by apply inheritedSlotOf_Missing.
Qed.

(** C5 at the first feature of a run: parcel Z9 in ELSEWHERE. *)
Lemma unofficial_commune_not_aggregated_witness :
  exists st',
    processFeature initialState unofficialFeature = Returned st' /\
    communeMap st' = communeMap initialState /\
    numParcelMap st' !! "Z9"
    = Some {| commune := Some "ELSEWHERE";
              properties := JObj [("Num_parcel", JStr "Z9");
                                  ("commune", JStr "Elsewhere")] |}.
Proof.
  destruct (unofficial_commune_not_aggregated initialState unofficialFeature
              (JObj [("Num_parcel", JStr "Z9"); ("commune", JStr "Elsewhere")])
              "Z9" "ELSEWHERE")
    as (st' & Pf & Agg & _ & Fresh).
  - exact officialKeys_initial.
  - reflexivity.
  - discriminate.
  - discriminate.
  - exact ELSEWHERE_unofficial.
  - exists st'. split; [exact Pf|]. split; [exact Agg|].
    apply Fresh; [reflexivity| |discriminate].
    intros H. by pose proof (inherited_name_hasLower "Z9" (or_introl H)).
Defined.

(** C5 as stated fails at a feature whose identifier already has a record
    with a commune: the second feature of the file resolves the identifier A1
    and the commune ELSEWHERE, which is not official, and the record of A1
    keeps KOAR. *)
Lemma unofficial_commune_not_stored_on_later_sighting :
  exists st',
    main [conflictFile] = Returned st' /\
    runSightings initialState [conflictFile]
    = Returned [ ("A1", Some "KOAR",
                  JObj [("Num_parcel", JStr "A1"); ("commune", JStr "KOAR")]);
                 ("A1", Some "ELSEWHERE",
                  JObj [("Num_parcel", JStr "A1");
                        ("commune", JStr "Elsewhere")]) ] /\
    ("ELSEWHERE" ∉ OFFICIAL_COMMUNES) /\
    commune <$> numParcelMap st' !! "A1" = Some (Some "KOAR") /\
    Some "KOAR" <> Some "ELSEWHERE".
Proof.
  destruct conflict_run as (st' & M & Htr).
  exists st'. split; [exact M|]. split; [exact Htr|].
  split; [exact ELSEWHERE_unofficial|]. split; [|done].
  destruct (run_records _ _ M) as (tr & Htr' & _ & Plain).
  assert (tr = conflictSightings) as ->
      by exact (Returned_eq _ _ _ Htr' Htr).
  rewrite (Plain "A1" (proj1 A1_plain) (proj2 A1_plain)). reflexivity.
Qed.

(** ** Runs that return *)

Lemma getOwn_In k ms v : JS.getOwn k ms = Some v -> exists k', In (k', v) ms.
Proof.
  induction ms as [|[k' w] ms IH]; simpl; [done|].
  destruct (JS.getOwn k ms) as [u|].
  - intros [= ->]. destruct IH as [k'' H]; [done|]. eauto.
  - destruct (String.eqb k' k); [|done]. intros [= ->]. eauto.
Qed.

Lemma read_scalarBag p bag k v :
  scalarBag bag = true -> read p (JObj bag) k = Some v ->
  isScalar (Some v) = true.
Proof.
  intros B. unfold read.
  destruct (JS.getOwn k bag) as [w|] eqn:G.
  - intros [= ->]. apply getOwn_In in G as [k' H].
    unfold scalarBag in B. rewrite forallb_forall in B. apply (B _ H).
  - destruct (String.eqb k "commune"); [|done].
    destruct p; [|done]. by intros [= <-].
Qed.

(** Whatever a scalar bag holds, the three readers return. *)
Lemma normalizeName_returns v :
  isScalar v = true -> exists r, normalizeName v = Returned r.
Proof.
  intros Sc. destruct v as [j|]; [|by eexists].
  destruct (JS.truthy (Some j)) eqn:T.
  - destruct (toString_scalar j Sc) as [s S].
    rewrite (normalizeName_truthy j s T S). by eexists.
  - rewrite normalizeName_falsy by done. by eexists.
Qed.

Lemma extractCommuneFromSourceFile_returns v :
  isScalar v = true -> exists r, extractCommuneFromSourceFile v = Returned r.
Proof.
  intros Sc. unfold extractCommuneFromSourceFile.
  destruct v as [j|]; [|by eexists].
  destruct (JS.truthy (Some j)); cbn [negb]; [|by eexists].
  destruct (toString_scalar j Sc) as [s ->]. cbn [mbind completion_bind].
  destruct (find (fun c => Str.includes _ c) OFFICIAL_COMMUNES); by eexists.
Qed.

Lemma findNumParcelIn_returns p bag keys :
  scalarBag bag = true ->
  exists r, findNumParcelIn p (JObj bag) keys = Returned r.
Proof.
  intros B. induction keys as [|k keys IH]; [by eexists|].
  cbn [findNumParcelIn].
  destruct (read p (JObj bag) k) as [j|] eqn:R; [|exact IH].
  destruct (JS.truthy (Some j)); [|exact IH].
  destruct (toString_scalar j (read_scalarBag _ _ _ _ B R)) as [s ->].
  by eexists.
Qed.

Lemma or_scalar (a b : value) :
  isScalar a = true -> isScalar b = true -> isScalar (JS.or a b) = true.
Proof. intros A B. unfold JS.or. by destruct (JS.truthy a). Qed.

Lemma read_scalarBag_value p bag k :
  scalarBag bag = true -> isScalar (read p (JObj bag) k) = true.
Proof.
  intros B. destruct (read p (JObj bag) k) as [v|] eqn:R; [|done].
  by apply (read_scalarBag p bag k).
Qed.

Lemma extractCommune_returns p bag :
  scalarBag bag = true -> exists r, extractCommune p (JObj bag) = Returned r.
Proof.
  intros B. unfold extractCommune.
  destruct (normalizeName_returns (directValue p (JObj bag))) as [com ->].
  { unfold directValue. repeat apply or_scalar; by apply read_scalarBag_value. }
  cbn [mbind completion_bind].
  destruct (negb (truthyS com) && _); [|by eexists].
  apply extractCommuneFromSourceFile_returns. by apply read_scalarBag_value.
Qed.

Lemma read_own p ms k :
  k <> "commune" -> read p (JObj ms) k = JS.getOwn k ms.
Proof.
  intros Ne. unfold read. destruct (JS.getOwn k ms); [done|].
  by destruct (String.eqb_spec k "commune").
Qed.

Lemma resolveFeature_returns p feat :
  plainFeature feat = true -> exists r, resolveFeature p feat = Returned r.
Proof.
  destruct feat as [| | | | |ms]; try done. cbn [plainFeature resolveFeature].
  rewrite read_own by done.
  destruct (JS.getOwn "properties" ms) as [[| | | | |bag]|]; try done; intros B;
    cbn [JS.truthy].
  - change (findNumParcel p (JObj [])) with (Returned (@None string)).
    cbn [mbind completion_bind].
    destruct (extractCommune_returns p []) as [com ->]; [done|]. by eexists.
  - unfold findNumParcel.
    destruct (findNumParcelIn_returns p bag numParcelKeys B) as [num ->].
    destruct (extractCommune_returns p bag B) as [com ->]. by eexists.
  - change (findNumParcel p (JObj [])) with (Returned (@None string)).
    cbn [mbind completion_bind].
    destruct (extractCommune_returns p []) as [com ->]; [done|]. by eexists.
Qed.

Lemma processFeatures_returns st features :
  forallb plainFeature features = true ->
  exists st', processFeatures st features = Returned st'.
Proof.
  revert st. induction features as [|feat rest IH]; intros st A; [by eexists|].
  cbn [forallb] in A. apply andb_true_iff in A as [F A].
  cbn [processFeatures]. rewrite processFeature_sighted.
  destruct (resolveFeature_returns (polluted st) feat F) as [r ->].
  cbn [mbind completion_bind]. by apply IH.
Qed.

Lemma processFile_returns st f :
  plainFile f = true -> exists st', processFile st f = Returned st'.
Proof.
  destruct f as [|gj]; [by eexists|]. destruct gj as [| | | | |ms]; try done.
  cbn [plainFile processFile]. rewrite read_own by done.
  destruct (JS.getOwn "features" ms) as [[| | | |features|]|]; try done;
    intros A; cbn [JS.truthy iterate mbind completion_bind].
  - by apply processFeatures_returns.
  - by eexists.
Qed.

(** Every run over well-formed files returns. *)
Lemma processFiles_returns st files :
  forallb plainFile files = true ->
  exists st', processFiles st files = Returned st'.
Proof.
  revert st. induction files as [|f rest IH]; intros st A; [by eexists|].
  cbn [forallb] in A. apply andb_true_iff in A as [F A].
  cbn [processFiles]. destruct (processFile_returns st f F) as [st1 ->].
  cbn [mbind completion_bind]. by apply IH.
Qed.

(** ** Identifiers and communes that name inherited properties *)

(** The commune of a feature has no lower-case letter, so it names nothing
    that [communeMap] or [COMMUNE_SPELLING_VARIANTS] inherits: their lookups
    are lookups among own properties. *)
Lemma extractCommune_not_inherited p props c :
  extractCommune p props = Returned (Some c) ->
  (c ∉ JS.prototypeNames) /\ c <> "commune".
Proof.
  intros H. assert (Str.hasLower c = false) as L.
  { unfold extractCommune in H.
    destruct (normalizeName (directValue p props)) as [com|e] eqn:N; [|done].
    cbn [mbind completion_bind] in H.
    destruct (negb (truthyS com) && _).
    - by apply official_no_lower, (extractCommuneFromSourceFile_official _ _ H).
    - apply Returned_inj in H as ->. by apply (normalizeName_no_lower _ _ N). }
  split.
  - intros H'. by rewrite (inherited_name_hasLower c (or_introl H')) in L.
  - intros H'. by rewrite (inherited_name_hasLower c (or_intror H')) in L.
Qed.

(** X1.  Every run over well-formed files returns: no TypeError is raised when
    each file fails to parse or is an object whose [features] is an array of
    objects whose [properties] hold scalars. *)
Theorem main_returns (files : list parsed) :
  forallb plainFile files = true -> exists st', main files = Returned st'.
Proof. intros A. unfold main. by apply processFiles_returns. Qed.

Lemma main_returns_witness :
  exists st', main [SyntaxError; scenarioFile; koarFile 3] = Returned st'.
Proof. apply main_returns. reflexivity. Defined.

Lemma constructor_run :
  exists st',
    main [oneFeatureFile [("Num_parcel", JStr "constructor");
                          ("commune", JStr "KOAR")]] = Returned st' /\
    numParcelMap st' = ∅ /\
    communeMap st' !! "KOAR"
    = Some {| count := 1; parcels := ["constructor"] |}.
Proof.
  eexists. split; [vm_compute; reflexivity|].
  split; vm_compute; reflexivity.
Qed.

Lemma toString_run :
  exists st', main [oneFeatureFile [("id", JStr "toString")]] = Returned st'.
Proof. eexists. vm_compute. reflexivity. Qed.

Lemma proto_run :
  exists st',
    main [protoFile] = Returned st' /\
    numParcelMap st' !! "B7"
    = Some {| commune := Some "KOAR";
              properties := JObj [("Num_parcel", JStr "B7")] |} /\
    numParcelMap st' !! "__proto__" = None /\
    communeMap st' !! "KOAR"
    = Some {| count := 2; parcels := ["__proto__"; "B7"] |}.
Proof.
  eexists. split; [vm_compute; reflexivity|].
  split; [|split]; vm_compute; reflexivity.
Qed.

(** X2.  An identifier that is the name of a member of Object.prototype never
    gets a record in the parcel lookup, while its sightings are counted in
    the aggregates like any other: [numParcelMap[num]] finds the inherited
    member, which is truthy. *)
Theorem prototype_named_identifier_has_no_record :
  (forall files st' n,
     main files = Returned st' -> n ∈ JS.prototypeNames ->
     numParcelMap st' !! n = None) /\
  (exists st',
     main [oneFeatureFile [("Num_parcel", JStr "constructor");
                           ("commune", JStr "KOAR")]] = Returned st' /\
     numParcelMap st' = ∅ /\
     communeMap st' !! "KOAR"
     = Some {| count := 1; parcels := ["constructor"] |}).
Proof.
  split; [|exact constructor_run].
  intros files st' n H P.
  apply processFiles_fold in H as (tr & _ & ->).
  apply fold_inherited_absent; [apply lookup_empty|].
  unfold inheritedSlotOf. by rewrite bool_decide_eq_true_2.
Qed.

Lemma prototype_named_identifier_has_no_record_witness :
  exists st',
    main [oneFeatureFile [("id", JStr "toString")]] = Returned st' /\
    numParcelMap st' !! "toString" = None.
Proof.
  destruct prototype_named_identifier_has_no_record as [NoRecord _].
  destruct toString_run as [st' M].
  exists st'. split; [exact M|].
  apply (NoRecord _ _ _ M).
  unfold JS.prototypeNames. do 8 (apply elem_of_cons; right).
  apply elem_of_cons. by left.
Defined.

(** ** The File Selector *)

Lemma pushNew_elem found m x : x ∈ pushNew found m <-> x ∈ found \/ x = m.
Proof.
  unfold pushNew. case_bool_decide as H.
  - split; [by left|]. by intros [?| ->].
  - rewrite elem_of_app, list_elem_of_singleton. done.
Qed.

Lemma pushNew_NoDup found m : NoDup found -> NoDup (pushNew found m).
Proof.
  intros N. unfold pushNew. case_bool_decide as H; [done|].
  apply NoDup_app. split; [done|]. split.
  - intros x Hx ->%list_elem_of_singleton. done.
  - apply NoDup_singleton.
Qed.

Lemma pushNew_extends found m : exists ext, pushNew found m = found ++ ext.
Proof.
  unfold pushNew. case_bool_decide.
  - exists []. by rewrite app_nil_r.
  - by eexists.
Qed.

Lemma pushAll_elem ms found x :
  x ∈ foldl pushNew found ms <-> x ∈ found \/ x ∈ ms.
Proof.
  revert found. induction ms as [|m ms IH]; intros found; simpl.
  - split; [by left|]. intros [?|H]; [done|]. by apply elem_of_nil in H.
  - rewrite IH, pushNew_elem, elem_of_cons. split.
    + intros [[?|?]|?]; auto.
    + intros [?|[?|?]]; auto.
Qed.

Lemma pushAll_NoDup ms found : NoDup found -> NoDup (foldl pushNew found ms).
Proof.
  revert found. induction ms as [|m ms IH]; intros found N; simpl; [done|].
  by apply IH, pushNew_NoDup.
Qed.

Lemma pushAll_extends ms found :
  exists ext, foldl pushNew found ms = found ++ ext.
Proof.
  revert found. induction ms as [|m ms IH]; intros found; simpl.
  - exists []. by rewrite app_nil_r.
  - destruct (pushNew_extends found m) as [e1 E1].
    destruct (IH (pushNew found m)) as [e2 E2].
    exists (e1 ++ e2). by rewrite E2, E1, app_assoc.
Qed.

(** The outer loop, started from any list of files found so far. *)
Lemma select_elem (globSync : string -> list string)
    (patterns found : list string) (x : string) :
  x ∈ foldl (fun found pat => foldl pushNew found (globSync pat))
            found patterns
  <-> x ∈ found \/ exists pat, pat ∈ patterns /\ x ∈ globSync pat.
Proof.
  revert found. induction patterns as [|pat patterns IH]; intros found; simpl.
  - split; [by left|]. intros [?|H]; [done|].
    destruct H as (pat & H & _). by apply elem_of_nil in H.
  - rewrite IH, pushAll_elem. split.
    + intros [[?|?]|(pat' & H & ?)]; [by left| |].
      * right. exists pat. split; [apply elem_of_cons; by left|done].
      * right. exists pat'. split; [apply elem_of_cons; by right|done].
    + intros [?|(pat' & [->|H]%elem_of_cons & ?)]; [by left; left| |].
      * left. by right.
      * right. by exists pat'.
Qed.

Lemma select_NoDup (globSync : string -> list string)
    (patterns found : list string) :
  NoDup found ->
  NoDup (foldl (fun found pat => foldl pushNew found (globSync pat))
               found patterns).
Proof.
  revert found. induction patterns as [|pat patterns IH]; intros found N;
    simpl; [done|].
  by apply IH, pushAll_NoDup.
Qed.

Lemma select_extends (globSync : string -> list string)
    (patterns found : list string) :
  exists ext,
    foldl (fun found pat => foldl pushNew found (globSync pat)) found patterns
    = found ++ ext.
Proof.
  revert found. induction patterns as [|pat patterns IH]; intros found; simpl.
  - exists []. by rewrite app_nil_r.
  - destruct (pushAll_extends (globSync pat) found) as [e1 E1].
    destruct (IH (foldl pushNew found (globSync pat))) as [e2 E2].
    exists (e1 ++ e2). by rewrite E2, E1, app_assoc.
Qed.

Lemma findParcelFilesIn_elem globSync patterns x :
  x ∈ findParcelFilesIn globSync patterns
  <-> exists pat, pat ∈ patterns /\ x ∈ globSync pat.
Proof.
  unfold findParcelFilesIn. rewrite select_elem. split; [|by right].
  intros [H|?]; [|done]. by apply elem_of_nil in H.
Qed.

Lemma findParcelFilesIn_NoDup globSync patterns :
  NoDup (findParcelFilesIn globSync patterns).
Proof. apply select_NoDup, NoDup_nil_2. Qed.

(** The files selected by the first patterns of a list stay where they are
    when patterns are added after them. *)
Lemma findParcelFilesIn_app globSync patterns1 patterns2 :
  exists ext,
    findParcelFilesIn globSync (patterns1 ++ patterns2)
    = findParcelFilesIn globSync patterns1 ++ ext.
Proof. unfold findParcelFilesIn. rewrite foldl_app. apply select_extends. Qed.

(** X4.  Whatever the directory holds, [findParcelFiles] returns every path
    that some pattern matches, returns nothing else, and returns no path
    twice. *)
Theorem findParcelFiles_selects_each_match_once
    (globSync : string -> list string) :
  NoDup (findParcelFiles globSync) /\
  (forall m, m ∈ findParcelFiles globSync <->
             exists pat, pat ∈ preferPatterns /\ m ∈ globSync pat) /\
  ((forall pat, pat ∈ preferPatterns -> globSync pat = []) ->
   findParcelFiles globSync = []).
Proof.
  split; [apply findParcelFilesIn_NoDup|]. split.
  - intros m. apply findParcelFilesIn_elem.
  - intros Empty. destruct (findParcelFiles globSync) as [|m l] eqn:E; [done|].
    assert (m ∈ findParcelFiles globSync) as H
        by (rewrite E; apply elem_of_cons; by left).
    apply findParcelFilesIn_elem in H as (pat & Hp & Hm).
    rewrite (Empty pat Hp) in Hm. by apply elem_of_nil in Hm.
Qed.

Lemma findParcelFiles_selects_each_match_once_witness :
  findParcelFiles (fun _ => []) = [].
Proof.
  apply (findParcelFiles_selects_each_match_once (fun _ => [])). done.
Defined.

(** X5.  A path takes the rank of the first pattern that matches it: when
    [m] is matched by the pattern of index [i] and [m'] is selected but
    matched by no pattern of index [i] or less, [m] comes before [m'] in the
    list [findParcelFiles] returns. *)
Theorem findParcelFiles_orders_by_first_match
    (globSync : string -> list string) (i : nat) (pat m m' : string) :
  preferPatterns !! i = Some pat ->
  m ∈ globSync pat ->
  m' ∈ findParcelFiles globSync ->
  (forall j pat', j <= i -> preferPatterns !! j = Some pat' ->
                  m' ∉ globSync pat') ->
  Before m m' (findParcelFiles globSync).
Proof.
  intros Hi Hm Hm' Late.
  unfold findParcelFiles in *.
  rewrite <- (take_drop (S i) preferPatterns) in Hm' |- *.
  destruct (findParcelFilesIn_app globSync (take (S i) preferPatterns)
              (drop (S i) preferPatterns)) as [ext E].
  rewrite E in Hm' |- *.
  assert (m ∈ findParcelFilesIn globSync (take (S i) preferPatterns)) as In1.
  { apply findParcelFilesIn_elem. exists pat. split; [|done].
    apply list_elem_of_lookup. exists i.
    rewrite lookup_take_lt by lia. done. }
  assert (m' ∉ findParcelFilesIn globSync (take (S i) preferPatterns)) as Out.
  { intros (pat' & Hp & H)%findParcelFilesIn_elem.
    apply list_elem_of_lookup in Hp as [j Hj].
    assert (j < S i) by (apply lookup_lt_Some in Hj;
                         rewrite length_take in Hj; lia).
    rewrite lookup_take_lt in Hj by done.
    apply (Late j pat'); [lia|done|done]. }
  apply elem_of_app in Hm' as [?|In2]; [done|].
  apply list_elem_of_split in In1 as (l1 & l2 & ->).
  apply list_elem_of_split in In2 as (e1 & l3 & ->).
  exists l1, (l2 ++ e1), l3. by rewrite <- !app_assoc.
Qed.

Lemma findParcelFiles_orders_by_first_match_witness :
  Before "individual_parcels.normalized.source_commune.geojson"
         "unjoined_parcels.geojson" (findParcelFiles globAll).
Proof.
  apply (findParcelFiles_orders_by_first_match globAll 0
           "individual_parcels.normalized.source_commune.geojson").
  - reflexivity.
  - apply list_elem_of_singleton. reflexivity.
  - apply findParcelFilesIn_elem. exists "unjoined_parcels.geojson".
    split; [|by apply list_elem_of_singleton].
    unfold preferPatterns. do 11 (apply elem_of_cons; right).
    apply elem_of_cons. by left.
  - intros j pat' Hj Hp H. assert (j = 0) as -> by lia.
    injection Hp as <-. by apply list_elem_of_singleton in H.
Defined.

Lemma preferPatterns_same_set pat :
  pat ∈ Simple.preferPatterns <-> pat ∈ preferPatterns.
Proof.
  split; intros H.
  - unfold Simple.preferPatterns in H.
    repeat (apply elem_of_cons in H as [->|H];
            [apply list_elem_of_In; simpl;
             repeat (first [left; reflexivity | right])|]).
    by apply elem_of_nil in H.
  - unfold preferPatterns in H.
    repeat (apply elem_of_cons in H as [->|H];
            [apply list_elem_of_In; simpl;
             repeat (first [left; reflexivity | right])|]).
    by apply elem_of_nil in H.
Qed.

(** X6.  The two scripts of the file select the same files from any
    directory, each file once, but rank them differently: where every
    pattern matches, the first script starts with
    individual_parcels.normalized.source_commune.geojson and the second with
    collective_parcels.source_commune.geojson. *)
Theorem both_scripts_select_the_same_files (globSync : string -> list string) :
  Simple.findParcelFiles globSync ≡ₚ findParcelFiles globSync /\
  head (findParcelFiles globAll)
  = Some "individual_parcels.normalized.source_commune.geojson" /\
  head (Simple.findParcelFiles globAll)
  = Some "collective_parcels.source_commune.geojson".
Proof.
  split; [|split; reflexivity].
  apply NoDup_Permutation; try apply findParcelFilesIn_NoDup.
  intros m. unfold Simple.findParcelFiles, findParcelFiles.
  rewrite !findParcelFilesIn_elem. split.
  - intros (pat & Hp & Hm). exists pat. by rewrite <- preferPatterns_same_set.
  - intros (pat & Hp & Hm). exists pat. by rewrite preferPatterns_same_set.
Qed.

(** ** The Parcel Identifier Resolver *)

Lemma read_not_commune p o k : k <> "commune" -> read p o k = read None o k.
Proof.
  intros Ne. unfold read.
  destruct (String.eqb_spec k "commune") as [->|_]; [done|]. done.
Qed.

Lemma findNumParcelIn_unpolluted p props keys :
  "commune" ∉ keys ->
  findNumParcelIn p props keys = findNumParcelIn None props keys.
Proof.
  induction keys as [|k keys IH]; intros Out; [done|].
  cbn [findNumParcelIn].
  rewrite (read_not_commune p props k), IH; [done| |].
  - intros H. apply Out, elem_of_cons. by right.
  - intros ->. apply Out, elem_of_cons. by left.
Qed.

Lemma findNumParcel_unpolluted p props :
  findNumParcel p props = findNumParcel None props.
Proof.
  apply findNumParcelIn_unpolluted. unfold numParcelKeys. intros H.
  repeat (apply elem_of_cons in H as [E|H]; [discriminate E|]).
  by apply elem_of_nil in H.
Qed.

Lemma findNumParcelIn_first p props pre k post j :
  (forall k', k' ∈ pre -> JS.truthy (read p props k') = false) ->
  read p props k = Some j -> JS.truthy (Some j) = true ->
  findNumParcelIn p props (pre ++ k :: post)
  = s ← JS.toString j; Returned (Some s).
Proof.
  intros Hpre R T. induction pre as [|k0 pre IH]; cbn [app findNumParcelIn].
  - by rewrite R, T.
  - assert (JS.truthy (read p props k0) = false) as F
        by (apply Hpre, elem_of_cons; by left).
    destruct (read p props k0) as [j0|].
    + rewrite F. apply IH. intros k' Hk'. apply Hpre, elem_of_cons. by right.
    + apply IH. intros k' Hk'. apply Hpre, elem_of_cons. by right.
Qed.

Lemma findNumParcelIn_none p props keys :
  (forall k, k ∈ keys -> JS.truthy (read p props k) = false) ->
  findNumParcelIn p props keys = Returned None.
Proof.
  induction keys as [|k keys IH]; intros F; [done|]. cbn [findNumParcelIn].
  assert (JS.truthy (read p props k) = false) as Fk
      by (apply F, elem_of_cons; by left).
  assert (findNumParcelIn p props keys = Returned None) as ->
      by (apply IH; intros k' Hk'; apply F, elem_of_cons; by right).
  destruct (read p props k) as [j|]; [|done]. by rewrite Fk.
Qed.

(** What [findNumParcel] returns comes from a key of its list. *)
Lemma findNumParcelIn_Some p props keys n :
  findNumParcelIn p props keys = Returned (Some n) ->
  exists k j, k ∈ keys /\ read p props k = Some j /\
              JS.truthy (Some j) = true /\ JS.toString j = Returned n.
Proof.
  induction keys as [|k keys IH]; [done|]. cbn [findNumParcelIn]. intros H.
  destruct (read p props k) as [j|] eqn:R.
  - destruct (JS.truthy (Some j)) eqn:T.
    + destruct (JS.toString j) as [s|e] eqn:S; [|done].
      apply Returned_inj in H. injection H as ->.
      exists k, j. split; [apply elem_of_cons; by left|done].
    + destruct (IH H) as (k' & j' & Hk & ?). exists k', j'.
      split; [apply elem_of_cons; by right|done].
  - destruct (IH H) as (k' & j' & Hk & ?). exists k', j'.
    split; [apply elem_of_cons; by right|done].
Qed.

(** X7.  [findNumParcel] returns the string of the first of the keys
    Num_parcel, NUM_PARCEL, num_parcel, numParcel, num, ID, id, Id_parcel,
    IDPARCEL whose value is truthy, whatever the later keys hold; it returns
    null when none is truthy; and a result is always the string of a truthy
    value under one of these keys.  A value that is falsy (0, false, the
    empty string, null) is passed over like a missing key. *)
Theorem findNumParcel_first_truthy_key (p : option string) (props : json) :
  (forall pre k post j,
     numParcelKeys = pre ++ k :: post ->
     (forall k', k' ∈ pre -> JS.truthy (read None props k') = false) ->
     read None props k = Some j -> JS.truthy (Some j) = true ->
     findNumParcel p props = s ← JS.toString j; Returned (Some s)) /\
  ((forall k, k ∈ numParcelKeys -> JS.truthy (read None props k) = false) ->
   findNumParcel p props = Returned None) /\
  (forall n,
     findNumParcel p props = Returned (Some n) ->
     exists k j, k ∈ numParcelKeys /\ read None props k = Some j /\
                 JS.truthy (Some j) = true /\ JS.toString j = Returned n).
Proof.
  rewrite findNumParcel_unpolluted. unfold findNumParcel.
  split; [|split].
  - intros pre k post j E Hpre R T. rewrite E.
    by apply findNumParcelIn_first.
  - apply findNumParcelIn_none.
  - apply findNumParcelIn_Some.
Qed.

(** A bag with a zero Num_parcel, an ID and an id: the ID wins. *)
Lemma findNumParcel_first_truthy_key_witness :
  findNumParcel None
    (JObj [("id", JStr "low"); ("ID", JNum (NInt 17));
           ("Num_parcel", JNum (NInt 0))])
  = s ← JS.toString (JNum (NInt 17)); Returned (Some s).
Proof.
  apply (findNumParcel_first_truthy_key None
           (JObj [("id", JStr "low"); ("ID", JNum (NInt 17));
                  ("Num_parcel", JNum (NInt 0))]))
    with (pre := ["Num_parcel"; "NUM_PARCEL"; "num_parcel"; "numParcel"; "num"])
         (k := "ID") (post := ["id"; "Id_parcel"; "IDPARCEL"]).
  - reflexivity.
  - intros k' H.
    repeat (apply elem_of_cons in H as [->|H]; [reflexivity|]).
    by apply elem_of_nil in H.
  - reflexivity.
  - reflexivity.
Defined.

(** ** Files: what is skipped, what aborts, what composes *)

Lemma processFeatures_app st features1 features2 :
  processFeatures st (features1 ++ features2)
  = st' ← processFeatures st features1; processFeatures st' features2.
Proof.
  revert st. induction features1 as [|f rest IH]; intros st; simpl; [done|].
  destruct (processFeature st f) as [st1|e]; [|done].
  cbn [mbind completion_bind]. apply IH.
Qed.

Lemma processFile_featuresFile st features :
  processFile st (featuresFile features) = processFeatures st features.
Proof. reflexivity. Qed.

Lemma processFiles_cons st f files :
  processFiles st (f :: files)
  = st' ← processFile st f; processFiles st' files.
Proof. reflexivity. Qed.

(** X8.  A file whose document has no [features], or a falsy one (null,
    false, 0, the empty string), contributes nothing and stops nothing: the
    state after it is the state before it, and the run is the run without
    the file.  This holds for every document but [null]: an object without
    the key, and also an array, a string, a number or a boolean. *)
Theorem file_without_features_is_passed_over (st : State) (gj : json) :
  gj <> JNull ->
  JS.truthy (read (polluted st) gj "features") = false ->
  processFile st (Document gj) = Returned st /\
  (forall after,
     processFiles st (Document gj :: after) = processFiles st after).
Proof.
  intros NotNull Falsy.
  assert (processFile st (Document gj) = Returned st) as E.
  { unfold processFile.
    destruct (read (polluted st) gj "features") as [fs|].
    - rewrite Falsy. by destruct gj.
    - by destruct gj. }
  split; [exact E|]. intros after. by rewrite processFiles_cons, E.
Qed.

(** A document that is a bare array of features, with no [features] key. *)
Lemma file_without_features_is_passed_over_witness :
  processFile initialState (Document (JArr [koarFeature]))
  = Returned initialState.
Proof.
  apply (file_without_features_is_passed_over initialState
           (JArr [koarFeature])); [discriminate|reflexivity].
Defined.

(** X9.  Where a file that does not parse is skipped, a file that parses to
    something the loops cannot walk aborts the run with a TypeError, and
    nothing is written: a document that is [null]; a [features] that is an
    object, [true] or a non-zero number; a feature that is [null].  The
    files before it have been processed in vain, the files after it are not
    read. *)
Theorem unwalkable_file_aborts_the_run :
  (forall before after st,
     main before = Returned st ->
     main (before ++ Document JNull :: after) = Thrown TypeError) /\
  (forall before after st ms v,
     main before = Returned st ->
     JS.getOwn "features" ms = Some v ->
     JS.truthy (Some v) = true ->
     (forall xs, v <> JArr xs) -> (forall s, v <> JStr s) ->
     main (before ++ Document (JObj ms) :: after) = Thrown TypeError) /\
  (forall before after st features1 features2 st1,
     main before = Returned st ->
     processFeatures st features1 = Returned st1 ->
     main (before ++ featuresFile (features1 ++ JNull :: features2) :: after)
     = Thrown TypeError).
Proof.
  unfold main. split; [|split].
  - intros before after st H. by rewrite processFiles_app, H.
  - intros before after st ms v H G T NotArr NotStr.
    rewrite processFiles_app, H. cbn [mbind completion_bind].
    rewrite processFiles_cons. unfold processFile.
    rewrite read_own, G, T by done.
    destruct v as [| | | s |xs| ]; try done.
    + by destruct (NotStr s).
    + by destruct (NotArr xs).
  - intros before after st features1 features2 st1 H P.
    rewrite processFiles_app, H. cbn [mbind completion_bind].
    rewrite processFiles_cons, processFile_featuresFile, processFeatures_app, P.
    reflexivity.
Qed.

(** The scenario file, then a file holding [null]. *)
Lemma unwalkable_file_aborts_the_run_witness :
  main ([scenarioFile] ++ Document JNull :: [koarFile 2]) = Thrown TypeError.
Proof.
  destruct unwalkable_file_aborts_the_run as (Null & _ & _).
  destruct scenario_run as (st & M & _).
  by apply (Null [scenarioFile] [koarFile 2] st).
Defined.

(** X10.  Only the sequence of features counts, not how it is cut into
    files: a file with the features of two files, one after the other, gives
    what the two files give in that order. *)
Theorem features_compose_across_files
    (before after : list parsed) (features1 features2 : list json) :
  main (before ++ featuresFile (features1 ++ features2) :: after)
  = main (before ++ featuresFile features1 :: featuresFile features2 :: after).
Proof.
  unfold main. rewrite !processFiles_app.
  destruct (processFiles initialState before) as [st|e]; [|done].
  cbn [mbind completion_bind].
  rewrite !processFiles_cons, !processFile_featuresFile, processFeatures_app.
  destruct (processFeatures st features1) as [st1|e]; [|done].
  cbn [mbind completion_bind].
  by rewrite processFiles_cons, processFile_featuresFile.
Qed.

(** ** What every sighting of a run satisfies *)

Lemma resolveFeature_inv p feat props num com :
  resolveFeature p feat = Returned (props, num, com) ->
  findNumParcel p props = Returned num /\ extractCommune p props = Returned com.
Proof.
  unfold resolveFeature. intros H.
  destruct feat; try done;
    (match type of H with
     | context [findNumParcel p ?b] =>
         destruct (findNumParcel p b) as [num'|e] eqn:N; [|done];
         destruct (extractCommune p b) as [com'|e] eqn:C; [|done]
     end);
    cbn [mbind completion_bind] in H; apply Returned_inj in H;
    injection H as <- <- <-; split; assumption.
Qed.

Lemma sighted_wellResolved p feat r s :
  resolveFeature p feat = Returned r -> sighted r = Some s -> wellResolved s.
Proof.
  destruct r as [[props num] com]. intros R S.
  apply resolveFeature_inv in R as [N C]. unfold sighted in S.
  destruct num as [n|]; [|done].
  destruct (truthyS (Some n)) eqn:T; [|done]. injection S as <-.
  split; [by destruct n|].
  split; [by rewrite <- (findNumParcel_unpolluted p)|].
  by exists p.
Qed.

Lemma featureSightings_wellResolved st features tr :
  featureSightings st features = Returned tr -> Forall wellResolved tr.
Proof.
  revert st tr. induction features as [|feat rest IH]; intros st tr H;
    cbn [featureSightings] in H.
  - apply Returned_inj in H as <-. constructor.
  - destruct (resolveFeature (polluted st) feat) as [r|e] eqn:R; [|done].
    cbn [mbind completion_bind] in H.
    destruct (processFeature st feat) as [st1|e]; [|done].
    cbn [mbind completion_bind] in H.
    destruct (featureSightings st1 rest) as [tr1|e] eqn:F; [|done].
    cbn [mbind completion_bind] in H. apply Returned_inj in H as <-.
    apply Forall_app. split; [|by apply (IH st1)].
    destruct (sighted r) as [s|] eqn:S; [|constructor].
    constructor; [|constructor]. by apply (sighted_wellResolved _ _ _ _ R S).
Qed.

Lemma fileSightings_wellResolved st f tr :
  fileSightings st f = Returned tr -> Forall wellResolved tr.
Proof.
  destruct f as [|gj]; cbn [fileSightings].
  - intros <-%Returned_inj. constructor.
  - destruct gj; try done;
      (destruct (iterate _) as [fs|e]; [|done]);
      cbn [mbind completion_bind]; apply featureSightings_wellResolved.
Qed.

Lemma runSightings_wellResolved st files tr :
  runSightings st files = Returned tr -> Forall wellResolved tr.
Proof.
  revert st tr. induction files as [|f rest IH]; intros st tr H;
    cbn [runSightings] in H.
  - apply Returned_inj in H as <-. constructor.
  - destruct (fileSightings st f) as [tr0|e] eqn:F; [|done].
    cbn [mbind completion_bind] in H.
    destruct (processFile st f) as [st1|e]; [|done].
    cbn [mbind completion_bind] in H.
    destruct (runSightings st1 rest) as [tr1|e] eqn:R; [|done].
    cbn [mbind completion_bind] in H. apply Returned_inj in H as <-.
    apply Forall_app. split.
    + by apply (fileSightings_wellResolved st f).
    + by apply (IH st1).
Qed.

Lemma sightingsOf_elem n tr com props :
  (com, props) ∈ sightingsOf n tr <-> (n, com, props) ∈ tr.
Proof.
  unfold sightingsOf. rewrite list_elem_of_omap. split.
  - intros ([[n' com'] props'] & In & E). case_bool_decide as D; [|done].
    injection E as -> ->. by subst.
  - intros In. exists (n, com, props). split; [done|].
    by rewrite bool_decide_eq_true_2.
Qed.

Lemma attributed_elem c tr n :
  n ∈ attributed c tr <-> exists props, (n, Some c, props) ∈ tr.
Proof.
  unfold attributed. rewrite list_elem_of_omap. split.
  - intros ([[n' com'] props'] & In & E). case_bool_decide as D; [|done].
    injection E as ->. subst. by exists props'.
  - intros [props In]. exists (n, Some c, props). split; [done|].
    by rewrite bool_decide_eq_true_2.
Qed.

Lemma firstTruthy_Some coms c :
  firstTruthy coms = Some c -> Some c ∈ coms /\ c <> "".
Proof.
  induction coms as [|com coms IH]; [done|]. cbn [firstTruthy].
  destruct (truthyS com) eqn:T.
  - intros ->. split; [apply elem_of_cons; by left|]. by intros ->.
  - intros [In Ne]%IH. split; [apply elem_of_cons; by right|done].
Qed.

Lemma firstTruthy_found coms com :
  com ∈ coms -> truthyS com = true -> truthyS (firstTruthy coms) = true.
Proof.
  intros In T. induction coms as [|com0 coms IH]; [by apply elem_of_nil in In|].
  cbn [firstTruthy]. destruct (truthyS com0) eqn:T0; [done|].
  apply elem_of_cons in In as [->|In]; [congruence|by apply IH].
Qed.

(** The record of [n] in terms of the sightings of the run. *)
Lemma record_from_sightings tr n r :
  expectedRecord (sightingsOf n tr) = Some r ->
  (exists com, (n, com, properties r) ∈ tr) /\
  (forall c, commune r = Some c ->
     c <> "" /\ exists props, (n, Some c, props) ∈ tr).
Proof.
  unfold expectedRecord.
  destruct (sightingsOf n tr) as [|[com0 props0] later] eqn:E; [done|].
  intros H.
  assert (r = {| commune := firstTruthy (fst <$> (com0, props0) :: later);
                 properties := props0 |}) as -> by congruence.
  clear H. cbn [properties commune]. split.
  - exists com0. apply sightingsOf_elem. rewrite E. apply elem_of_cons. by left.
  - intros c [In Ne]%firstTruthy_Some. split; [done|].
    apply list_elem_of_fmap in In as ([com props] & Ec & In).
    cbn [fst] in Ec. subst com. exists props.
    apply sightingsOf_elem. by rewrite E.
Qed.

(** The two lookups of a run, from one list of sightings. *)
Lemma run_lookups files st' :
  main files = Returned st' ->
  exists tr,
    Forall wellResolved tr /\
    (forall c,
       communeMap st' !! c
       = if bool_decide (c ∈ OFFICIAL_COMMUNES)
         then Some {| count := length (attributed c tr);
                      parcels := take 1000 (attributed c tr) |}
         else None) /\
    (forall n r, numParcelMap st' !! n = Some r ->
       expectedRecord (sightingsOf n tr) = Some r) /\
    (forall n, n ∉ JS.prototypeNames -> n <> "commune" ->
       numParcelMap st' !! n = expectedRecord (sightingsOf n tr)).
Proof.
  intros H.
  destruct (run_aggregates files st' H) as (tr & Htr & _ & Agg).
  destruct (run_records files st' H) as (tr' & Htr' & Rec & Plain).
  assert (tr' = tr) as -> by exact (Returned_eq _ _ _ Htr' Htr).
  exists tr. split; [by apply (runSightings_wellResolved _ _ _ Htr)|].
  split; [exact Agg|]. split; [exact Rec|exact Plain].
Qed.

(** ** The two lookups together *)

(** X11.  The two lookups of a run agree.  A record whose commune is
    official has been counted in the aggregate of that commune: the count
    is at least 1, and the identifier is among the parcels unless the count
    has passed 1000.  And an identifier listed in an aggregate has a record,
    with a commune that is set (for an identifier that names no member of
    Object.prototype, nor [commune]). *)
Theorem lookups_agree (files : list parsed) (st' : State) :
  main files = Returned st' ->
  (forall n r c a,
     numParcelMap st' !! n = Some r -> commune r = Some c ->
     communeMap st' !! c = Some a ->
     1 <= count a /\ (count a <= 1000 -> n ∈ parcels a)) /\
  (forall c a n,
     communeMap st' !! c = Some a -> n ∈ parcels a ->
     n ∉ JS.prototypeNames -> n <> "commune" ->
     exists r, numParcelMap st' !! n = Some r /\ truthyS (commune r) = true).
Proof.
  intros H. destruct (run_lookups files st' H) as (tr & _ & Agg & Rec & Plain).
  split.
  - intros n r c a Hr Hc Ha. rewrite Agg in Ha.
    case_bool_decide; [|done]. injection Ha as <-. cbn [count parcels].
    apply Rec, record_from_sightings in Hr as [_ Hr].
    destruct (Hr c Hc) as (_ & props & In).
    assert (n ∈ attributed c tr) as At by (apply attributed_elem; eauto).
    split.
    + destruct (attributed c tr); [by apply elem_of_nil in At|simpl; lia].
    + intros Le. by rewrite take_ge.
  - intros c a n Ha Hn P C. rewrite Agg in Ha.
    case_bool_decide as Off; [|done]. injection Ha as <-.
    cbn [parcels] in Hn. apply subseteq_take, attributed_elem in Hn as [props In].
    rewrite (Plain n P C). unfold expectedRecord.
    destruct (sightingsOf n tr) as [|[com0 props0] later] eqn:E.
    + apply sightingsOf_elem in In. rewrite E in In.
      by apply elem_of_nil in In.
    + eexists. split; [done|]. cbn [commune].
      apply (firstTruthy_found _ (Some c)).
      * apply list_elem_of_fmap. exists (Some c, props). split; [done|].
        rewrite <- E. by apply sightingsOf_elem.
      * apply official_nonempty in Off. by destruct c.
Qed.

Lemma lookups_agree_witness :
  exists st' r a,
    main [scenarioFile] = Returned st' /\
    numParcelMap st' !! "B2" = Some r /\
    communeMap st' !! "KOAR" = Some a /\
    1 <= count a /\ (count a <= 1000 -> "B2" ∈ parcels a).
Proof.
  destruct scenario_outcome as (st' & M & _ & Hst & Agg).
  destruct (lookups_agree [scenarioFile] st' M) as [Counted _].
  exists st'.
  exists {| commune := Some "KOAR";
            properties := JObj [("IDPARCEL", JStr "B2"); ("CCRCA", JStr "KOAR")] |}.
  eexists.
  assert (numParcelMap st' !! "B2"
          = Some {| commune := Some "KOAR";
                    properties := JObj [("IDPARCEL", JStr "B2");
                                        ("CCRCA", JStr "KOAR")] |}) as R
      by (rewrite Hst; vm_compute; reflexivity).
  split; [exact M|]. split; [exact R|]. split; [exact (Agg "KOAR")|].
  exact (Counted "B2" _ "KOAR" _ R eq_refl (Agg "KOAR")).
Defined.

(** X13.  The key of a record is the identifier of its property bag: it is
    a non-empty string, and [findNumParcel] on the stored properties returns
    it. *)
Theorem record_key_is_its_identifier
    (files : list parsed) (st' : State) (n : string) (r : ParcelRecord) :
  main files = Returned st' ->
  numParcelMap st' !! n = Some r ->
  n <> "" /\ findNumParcel None (properties r) = Returned (Some n).
Proof.
  intros H Hr.
  destruct (run_lookups files st' H) as (tr & WR & _ & Rec & _).
  apply Rec in Hr. apply record_from_sightings in Hr as [[com In] _].
  rewrite Forall_forall in WR. destruct (WR _ In) as (Ne & F & _). done.
Qed.

Lemma record_key_is_its_identifier_witness :
  "B2" <> "" /\
  findNumParcel None (JObj [("IDPARCEL", JStr "B2"); ("CCRCA", JStr "KOAR")])
  = Returned (Some "B2").
Proof.
  destruct scenario_outcome as (st' & M & _ & Hst & _).
  apply (record_key_is_its_identifier [scenarioFile] st' "B2"
           {| commune := Some "KOAR";
              properties := JObj [("IDPARCEL", JStr "B2");
                                  ("CCRCA", JStr "KOAR")] |}).
  - exact M.
  - rewrite Hst. vm_compute. reflexivity.
Defined.

(** ** The second script *)

(** X14.  The canonicalizer of the first script is the one of the second
    followed by the spelling variants: both return null on the same values
    and raise on the same values, and they return the same name unless the
    second returns DINDEFELLO or FONGOLEMBI, which the first replaces by
    DINDEFELO and FONGOLIMBI. *)
Theorem normalizeName_extends_simple (v : value) :
  normalizeName v
  = (r ← Simple.normalizeName v;
     Returned (option_map canonicalOf r) : completion (option string)) /\
  (normalizeName v = Returned None <-> Simple.normalizeName v = Returned None) /\
  (forall r, Simple.normalizeName v = Returned (Some r) ->
     normalizeName v
     = Returned (Some (if decide (r = "DINDEFELLO") then "DINDEFELO"
                       else if decide (r = "FONGOLEMBI") then "FONGOLIMBI"
                       else r))).
Proof.
  assert (normalizeName v
          = (r ← Simple.normalizeName v;
             Returned (option_map canonicalOf r)
             : completion (option string))) as E.
  { destruct v as [j|]; [|done].
    destruct (JS.truthy (Some j)) eqn:T.
    - destruct (JS.toString j) as [s|e] eqn:S.
      + rewrite (normalizeName_truthy j s T S).
        unfold Simple.normalizeName. by rewrite T, S.
      + rewrite (normalizeName_throws j e T S).
        unfold Simple.normalizeName. by rewrite T, S.
    - rewrite normalizeName_falsy by done.
      unfold Simple.normalizeName. by rewrite T. }
  split; [exact E|]. rewrite E. split.
  - destruct (Simple.normalizeName v) as [[r|]|e]; done.
  - intros r ->. cbn [mbind completion_bind option_map].
    unfold canonicalOf. rewrite variants_lookup. by repeat case_decide.
Qed.

Lemma normalizeName_extends_simple_witness :
  normalizeName (Some (JStr " fongolembi"))
  = Returned (Some (if decide ("FONGOLEMBI" = "DINDEFELLO") then "DINDEFELO"
                    else if decide ("FONGOLEMBI" = "FONGOLEMBI")
                         then "FONGOLIMBI" else "FONGOLEMBI")).
Proof.
  apply (normalizeName_extends_simple (Some (JStr " fongolembi"))).
  reflexivity.
Defined.

Lemma simple_processFeature_sighted st feat :
  Simple.processFeature st feat
  = r ← Simple.resolveFeature (polluted st) feat;
    Returned (match sighted r with
              | Some s => Simple.applySighting st s
              | None => st
              end).
Proof.
  unfold Simple.processFeature.
  destruct (Simple.resolveFeature _ _) as [[[props num] com]|e]; [|done].
  cbn [mbind completion_bind sighted]. destruct num as [n|]; [|done].
  by destruct (truthyS (Some n)).
Qed.

Lemma simple_processFeatures_fold st features st' :
  Simple.processFeatures st features = Returned st' ->
  exists tr, Simple.featureSightings st features = Returned tr /\
             st' = foldl Simple.applySighting st tr.
Proof.
  revert st. induction features as [|feat rest IH]; intros st H; simpl in *.
  - injection H as <-. by exists [].
  - destruct (Simple.processFeature st feat) as [st1|e] eqn:P; [|done].
    pose proof P as P'. rewrite simple_processFeature_sighted in P'.
    destruct (Simple.resolveFeature (polluted st) feat) as [r|e] eqn:R; [|done].
    cbn [mbind completion_bind] in *.
    apply Returned_inj in P'.
    destruct (IH st1 H) as (tr & -> & ->).
    exists (option_list (sighted r) ++ tr). split; [done|].
    rewrite foldl_app. f_equal. rewrite <- P'. by destruct (sighted r).
Qed.

Lemma simple_processFile_fold st f st' :
  Simple.processFile st f = Returned st' ->
  exists tr, Simple.fileSightings st f = Returned tr /\
             st' = foldl Simple.applySighting st tr.
Proof.
  destruct f as [|gj]; simpl.
  - intros [= <-]. by exists [].
  - destruct gj; try done;
      (destruct (iterate _) as [fs|e]; [|done]);
      cbn [mbind completion_bind]; apply simple_processFeatures_fold.
Qed.

Lemma simple_processFiles_fold st files st' :
  Simple.processFiles st files = Returned st' ->
  exists tr, Simple.runSightings st files = Returned tr /\
             st' = foldl Simple.applySighting st tr.
Proof.
  revert st. induction files as [|f rest IH]; intros st H; simpl in *.
  - injection H as <-. by exists [].
  - destruct (Simple.processFile st f) as [st1|e] eqn:P; [|done].
    destruct (simple_processFile_fold st f st1 P) as (tr & -> & ->).
    cbn [mbind completion_bind] in *.
    destruct (IH _ H) as (tr' & -> & ->).
    exists (tr ++ tr'). split; [done|]. by rewrite foldl_app.
Qed.

(** One sighting of the second script, seen from the aggregate of [c]. *)
Lemma simple_applySighting_aggregate st n com props c :
  c <> "" ->
  communeMap (Simple.applySighting st (n, com, props)) !! c
  = if bool_decide (com = Some c)
    then let a := default {| count := 0; parcels := [] |}
                          (communeMap st !! c) in
         Some {| count := count a + 1;
                 parcels := if (length (parcels a) <? 1000)%nat
                            then parcels a ++ [n] else parcels a |}
    else communeMap st !! c.
Proof.
  intros Hc. unfold Simple.applySighting, Simple.storeSighting,
    Simple.countSighting.
  destruct com as [c'|].
  2: { by rewrite storeRecord_communeMap, bool_decide_eq_false_2. }
  destruct (truthyS (Some c')) eqn:T.
  - cbn [communeMap]. rewrite storeRecord_communeMap.
    destruct (decide (c' = c)) as [->|Ne].
    + by rewrite lookup_insert_eq, bool_decide_eq_true_2.
    + rewrite lookup_insert_ne by done.
      by rewrite bool_decide_eq_false_2 by congruence.
  - assert (c' = "") as -> by (by destruct c').
    by rewrite storeRecord_communeMap, bool_decide_eq_false_2 by congruence.
Qed.

Lemma simple_fold_aggregate_Some tr st c a :
  c <> "" -> communeMap st !! c = Some a ->
  communeMap (foldl Simple.applySighting st tr) !! c
  = Some {| count := count a + length (attributed c tr);
            parcels := parcels a
                       ++ take (1000 - length (parcels a))
                               (attributed c tr) |}.
Proof.
  intros Hc. revert st a.
  induction tr as [|[[n com] props] tr IH]; intros st a E.
  - simpl. rewrite E, take_nil, app_nil_r, Nat.add_0_r. by destruct a.
  - cbn [foldl]. unfold attributed. cbn [omap list_omap].
    fold (attributed c tr).
    pose proof (simple_applySighting_aggregate st n com props c Hc) as Step.
    rewrite E in Step. cbn [default id] in Step.
    destruct (bool_decide (com = Some c)).
    + rewrite (IH _ _ Step). cbn [count parcels length].
      f_equal. f_equal; [lia|].
      rewrite <- (capped_push
                    (if (length (parcels a) <? 1000)%nat
                     then parcels a ++ [n] else parcels a)).
      rewrite <- (capped_push (parcels a)). reflexivity.
    + by rewrite (IH _ _ Step).
Qed.

Lemma simple_fold_aggregate_None tr st c :
  c <> "" -> communeMap st !! c = None ->
  communeMap (foldl Simple.applySighting st tr) !! c
  = match attributed c tr with
    | [] => None
    | l => Some {| count := length l; parcels := take 1000 l |}
    end.
Proof.
  intros Hc. revert st.
  induction tr as [|[[n com] props] tr IH]; intros st E; [done|].
  cbn [foldl]. unfold attributed. cbn [omap list_omap].
  fold (attributed c tr).
  pose proof (simple_applySighting_aggregate st n com props c Hc) as Step.
  rewrite E in Step. cbn [default id] in Step.
  destruct (bool_decide (com = Some c)).
  - rewrite (simple_fold_aggregate_Some tr _ c _ Hc Step).
    cbn [count parcels length app]. done.
  - by apply IH.
Qed.

Lemma simple_applySighting_no_empty_key st s :
  communeMap st !! "" = None ->
  communeMap (Simple.applySighting st s) !! "" = None.
Proof.
  destruct s as [[n com] props]. intros N.
  unfold Simple.applySighting, Simple.storeSighting, Simple.countSighting.
  destruct com as [c'|]; [|by rewrite storeRecord_communeMap].
  destruct (truthyS (Some c')) eqn:T; [|by rewrite storeRecord_communeMap].
  cbn [communeMap]. rewrite storeRecord_communeMap.
  rewrite lookup_insert_ne; [done|]. by intros ->.
Qed.

Lemma simple_fold_no_empty_key tr st :
  communeMap st !! "" = None ->
  communeMap (foldl Simple.applySighting st tr) !! "" = None.
Proof.
  revert st. induction tr as [|s tr IH]; intros st N; [done|].
  by apply IH, simple_applySighting_no_empty_key.
Qed.

(** X15.  The second script aggregates by every commune it meets, official
    or not, and by nothing else: with no file the commune lookup is empty,
    and after a run the lookup has an entry exactly for the non-empty
    communes of its sightings, each with the number of sightings as [count]
    and the first 1000 identifiers as [parcels]. *)
Theorem simple_script_aggregates_every_commune :
  (exists st', Simple.main [] = Returned st' /\ communeMap st' = ∅) /\
  (forall files st',
     Simple.main files = Returned st' ->
     exists tr,
       Simple.runSightings Simple.initialState files = Returned tr /\
       communeMap st' !! "" = None /\
       forall c, c <> "" ->
         communeMap st' !! c
         = match attributed c tr with
           | [] => None
           | l => Some {| count := length l; parcels := take 1000 l |}
           end).
Proof.
  split; [by eexists|].
  intros files st' H. apply simple_processFiles_fold in H as (tr & Htr & ->).
  exists tr. split; [exact Htr|]. split.
  - by apply simple_fold_no_empty_key.
  - intros c Hc. by apply simple_fold_aggregate_None.
Qed.

Lemma simple_conflict_run :
  exists st',
    Simple.main [conflictFile] = Returned st' /\
    Simple.runSightings Simple.initialState [conflictFile]
    = Returned conflictSightings.
Proof. eexists. split; vm_compute; reflexivity. Qed.

(** The second script on the file of KOAR and ELSEWHERE: ELSEWHERE, which
    is not official, has an aggregate. *)
Lemma simple_script_aggregates_every_commune_witness :
  exists st',
    Simple.main [conflictFile] = Returned st' /\
    communeMap st' !! "ELSEWHERE"
    = Some {| count := 1; parcels := ["A1"] |}.
Proof.
  destruct simple_script_aggregates_every_commune as [_ Run].
  destruct simple_conflict_run as (st' & M & Htr).
  destruct (Run [conflictFile] st' M) as (tr & Htr' & _ & Agg).
  assert (tr = conflictSightings) as -> by exact (Returned_eq _ _ _ Htr' Htr).
  exists st'. split; [exact M|]. rewrite Agg by discriminate. reflexivity.
Defined.

(** [storeRecord] reads and writes the records and the built-ins only. *)
Lemma storeRecord_agree st1 st2 n com props :
  numParcelMap st1 = numParcelMap st2 ->
  builtinCommune st1 = builtinCommune st2 ->
  numParcelMap (storeRecord st1 n com props)
  = numParcelMap (storeRecord st2 n com props) /\
  builtinCommune (storeRecord st1 n com props)
  = builtinCommune (storeRecord st2 n com props).
Proof.
  intros E1 E2. unfold storeRecord, inheritedSlotOf, polluted.
  rewrite E1, E2.
  destruct (numParcelMap st2 !! n) as [r|].
  - destruct (negb _ && _); cbn [numParcelMap builtinCommune]; by rewrite ?E1.
  - case_bool_decide.
    + destruct com as [c|]; [|done].
      destruct (negb _ && _); cbn [numParcelMap builtinCommune]; by rewrite ?E2.
    + destruct (String.eqb n "commune" && _);
        cbn [numParcelMap builtinCommune]; by rewrite ?E1.
Qed.

Lemma simple_countSighting_numParcelMap st num com :
  numParcelMap (Simple.countSighting st num com) = numParcelMap st.
Proof.
  unfold Simple.countSighting. destruct com as [c|]; [|done].
  by destruct (truthyS (Some c)).
Qed.

Lemma simple_countSighting_builtinCommune st num com :
  builtinCommune (Simple.countSighting st num com) = builtinCommune st.
Proof.
  unfold Simple.countSighting. destruct com as [c|]; [|done].
  by destruct (truthyS (Some c)).
Qed.

Lemma fold_records_agree tr st1 st2 :
  numParcelMap st1 = numParcelMap st2 ->
  builtinCommune st1 = builtinCommune st2 ->
  numParcelMap (foldl Simple.applySighting st1 tr)
  = numParcelMap (foldl applySighting st2 tr).
Proof.
  revert st1 st2. induction tr as [|[[n com] props] tr IH];
    intros st1 st2 E1 E2; [done|].
  cbn [foldl]. destruct (storeRecord_agree st1 st2 n com props E1 E2) as [A B].
  apply IH.
  - unfold Simple.applySighting, Simple.storeSighting.
    by rewrite simple_countSighting_numParcelMap, applySighting_numParcelMap.
  - unfold Simple.applySighting, Simple.storeSighting.
    by rewrite simple_countSighting_builtinCommune,
         applySighting_builtinCommune.
Qed.

(** X16.  The second script keeps the parcel records by the rule of the
    first: from the same sightings both build the same parcel lookup, in
    which a record has the property bag of the first sighting of its
    identifier and the first commune, in processing order, that is a
    non-empty string. *)
Theorem simple_script_keeps_the_same_records
    (files : list parsed) (st' : State) :
  Simple.main files = Returned st' ->
  exists tr,
    Simple.runSightings Simple.initialState files = Returned tr /\
    numParcelMap st' = numParcelMap (foldl applySighting initialState tr) /\
    (forall n r, numParcelMap st' !! n = Some r ->
       expectedRecord (sightingsOf n tr) = Some r) /\
    (forall n, n ∉ JS.prototypeNames -> n <> "commune" ->
       numParcelMap st' !! n = expectedRecord (sightingsOf n tr)).
Proof.
  intros H. apply simple_processFiles_fold in H as (tr & Htr & ->).
  exists tr. split; [exact Htr|].
  assert (numParcelMap (foldl Simple.applySighting Simple.initialState tr)
          = numParcelMap (foldl applySighting initialState tr)) as E
      by (by apply fold_records_agree).
  split; [exact E|]. rewrite E. split.
  - intros n r. by apply fold_record_absent.
  - intros n P C. by apply fold_record_plain.
Qed.

Lemma simple_script_keeps_the_same_records_witness :
  exists st',
    Simple.main [conflictFile] = Returned st' /\
    numParcelMap st' !! "A1"
    = Some {| commune := Some "KOAR";
              properties := JObj [("Num_parcel", JStr "A1");
                                  ("commune", JStr "KOAR")] |}.
Proof.
  destruct simple_conflict_run as (st' & M & Htr).
  destruct (simple_script_keeps_the_same_records [conflictFile] st' M)
    as (tr & Htr' & _ & _ & Plain).
  assert (tr = conflictSightings) as -> by exact (Returned_eq _ _ _ Htr' Htr).
  exists st'. split; [exact M|].
  rewrite (Plain "A1" (proj1 A1_plain) (proj2 A1_plain)). reflexivity.
Defined.

(** X17.  Where the two scripts resolve the same sightings from the same
    files (no spelling variant and no [source_file] hint comes into play),
    they write the same parcel lookup, and the commune lookup of the first
    script is the one of the second restricted to the official communes,
    with the zero entry for those the second script does not have. *)
Theorem scripts_agree_on_the_same_sightings
    (files : list parsed) (st1 st2 : State) (tr : list Sighting) :
  main files = Returned st1 ->
  Simple.main files = Returned st2 ->
  runSightings initialState files = Returned tr ->
  Simple.runSightings Simple.initialState files = Returned tr ->
  numParcelMap st1 = numParcelMap st2 /\
  forall c,
    communeMap st1 !! c
    = if bool_decide (c ∈ OFFICIAL_COMMUNES)
      then Some (default {| count := 0; parcels := [] |} (communeMap st2 !! c))
      else None.
Proof.
  intros M1 M2 T1 T2.
  destruct (run_aggregates files st1 M1) as (tr1 & Htr1 & Hst1 & Agg).
  assert (tr1 = tr) as -> by exact (Returned_eq _ _ _ Htr1 T1).
  apply simple_processFiles_fold in M2 as (tr2 & Htr2 & ->).
  assert (tr2 = tr) as -> by exact (Returned_eq _ _ _ Htr2 T2).
  split.
  - rewrite Hst1. symmetry. by apply fold_records_agree.
  - intros c. rewrite Agg. case_bool_decide as Off; [|done].
    rewrite simple_fold_aggregate_None; [|by apply official_nonempty|done].
    by destruct (attributed c tr).
Qed.

Lemma scripts_agree_on_the_same_sightings_witness :
  exists st1 st2,
    main [conflictFile] = Returned st1 /\
    Simple.main [conflictFile] = Returned st2 /\
    numParcelMap st1 = numParcelMap st2.
Proof.
  destruct conflict_run as (st1 & M1 & T1).
  destruct simple_conflict_run as (st2 & M2 & T2).
  exists st1, st2. split; [exact M1|]. split; [exact M2|].
  exact (proj1 (scripts_agree_on_the_same_sightings
                  [conflictFile] st1 st2 conflictSightings M1 M2 T1 T2)).
Defined.

(** ** The file-name hint and the registry *)

Lemma extractCommuneFromSourceFile_upper s :
  s <> "" ->
  extractCommuneFromSourceFile (Some (JStr s))
  = extractCommuneFromSourceFile (Some (JStr (Str.toUpperCase s))).
Proof.
  intros Hs.
  rewrite !extractCommuneFromSourceFile_string, toUpperCase_idem; [done| |done].
  by destruct s.
Qed.

(** X18.  No official name hides another from the file-name hint: a
    [source_file] that is, up to letter case, the name of an official
    commune, written with its spaces or with underscores for them, resolves
    to that commune, although names are tried in registry order and matched
    as substrings. *)
Theorem hint_resolves_each_official_name (s c : string) :
  c ∈ OFFICIAL_COMMUNES ->
  Str.toUpperCase s = c \/ Str.toUpperCase s = Str.replaceSpaces c ->
  extractCommuneFromSourceFile (Some (JStr s)) = Returned (Some c).
Proof.
  intros Off Up.
  assert (s <> "") as Hs.
  { intros ->. apply official_nonempty in Off.
    destruct Up as [E|E]; cbn in E; [done|]. by destruct c. }
  rewrite (extractCommuneFromSourceFile_upper s Hs).
  unfold OFFICIAL_COMMUNES in Off.
  destruct Up as [->| ->];
    repeat (apply elem_of_cons in Off as [->|Off]; [vm_compute; reflexivity|]);
    by apply elem_of_nil in Off.
Qed.

Lemma hint_resolves_each_official_name_witness :
  extractCommuneFromSourceFile (Some (JStr "Medina_Baffe"))
  = Returned (Some "MEDINA BAFFE").
Proof.
  apply hint_resolves_each_official_name.
  - unfold OFFICIAL_COMMUNES. do 14 (apply elem_of_cons; right).
    apply elem_of_cons. by left.
  - right. reflexivity.
Defined.

(** ** Features without an identifier *)

(** X19.  A feature whose property bag holds scalars and has none of the
    identifier keys with a truthy value is dropped: it raises nothing and
    leaves both lookups, and the state as a whole, as they are, whatever
    commune it names. *)
Theorem feature_without_identifier_is_dropped
    (st : State) (ms bag : list (string * json)) :
  JS.getOwn "properties" ms = Some (JObj bag) ->
  scalarBag bag = true ->
  (forall k, k ∈ numParcelKeys -> JS.truthy (JS.getOwn k bag) = false) ->
  processFeature st (JObj ms) = Returned st.
Proof.
  intros G B NoId. unfold processFeature, resolveFeature.
  rewrite read_own, G by done. cbn [JS.truthy].
  assert (findNumParcel (polluted st) (JObj bag) = Returned None) as ->.
  { rewrite findNumParcel_unpolluted. apply findNumParcelIn_none.
    intros k Hk. rewrite read_own; [by apply NoId|].
    intros ->. unfold numParcelKeys in Hk.
    repeat (apply elem_of_cons in Hk as [E|Hk]; [discriminate E|]).
    by apply elem_of_nil in Hk. }
  destruct (extractCommune_returns (polluted st) bag B) as [com ->].
  reflexivity.
Qed.

Lemma feature_without_identifier_is_dropped_witness :
  processFeature initialState
    (JObj [("type", JStr "Feature");
           ("properties", JObj [("commune", JStr "KOAR"); ("ID", JNum (NInt 0))])])
  = Returned initialState.
Proof.
  apply (feature_without_identifier_is_dropped initialState _
           [("commune", JStr "KOAR"); ("ID", JNum (NInt 0))]).
  - reflexivity.
  - reflexivity.
  - intros k Hk. unfold numParcelKeys in Hk.
    repeat (apply elem_of_cons in Hk as [->|Hk]; [reflexivity|]).
    by apply elem_of_nil in Hk.
Defined.

(** ** The Name Canonicalizer over the built-in string functions *)

(** On ASCII text the functions of [Str] obey the laws of the built-ins. *)
Lemma ascii_laws : Builtins.Laws Str.trim Str.toUpperCase.
Proof.
  split.
  - apply trim_idem.
  - apply toUpperCase_idem.
  - apply trim_toUpperCase.
  - apply hasLower_toUpperCase.
  - by intros s _.
Qed.

(** With the functions of [Str] for the built-ins, the functions of
    [Builtins] are those of the script as modelled above. *)
Lemma builtins_normalizeName_ascii v :
  Builtins.normalizeName Str.trim Str.toUpperCase v = normalizeName v.
Proof. reflexivity. Qed.

Lemma builtins_normalizeName_truthy trim upper j s :
  JS.truthy (Some j) = true -> JS.toString j = Returned s ->
  Builtins.normalizeName trim upper (Some j)
  = Returned (Some (canonicalOf (upper (trim s)))).
Proof.
  intros T S. unfold Builtins.normalizeName. rewrite T, S. simpl.
  unfold canonicalOf. rewrite variants_lookup.
  by repeat case_decide.
Qed.

Lemma builtins_normalizeName_Some trim upper v r :
  Builtins.normalizeName trim upper v = Returned (Some r) ->
  exists j s, v = Some j /\ JS.truthy v = true /\ JS.toString j = Returned s /\
              r = canonicalOf (upper (trim s)).
Proof.
  intros H. destruct v as [j|]; [|done].
  destruct (JS.truthy (Some j)) eqn:T.
  - destruct (JS.toString j) as [s|e] eqn:S.
    + rewrite (builtins_normalizeName_truthy trim upper j s T S) in H.
      exists j, s. naive_solver.
    + unfold Builtins.normalizeName in H. by rewrite T, S in H.
  - unfold Builtins.normalizeName in H. by rewrite T in H.
Qed.

Lemma official_isAscii c : c ∈ OFFICIAL_COMMUNES -> Str.isAscii c = true.
Proof.
  unfold OFFICIAL_COMMUNES. intros H.
  repeat (apply elem_of_cons in H as [->|H]; [reflexivity|]).
  by apply elem_of_nil in H.
Qed.

Lemma official_ascii_fixed c :
  c ∈ OFFICIAL_COMMUNES -> Str.trim c = c /\ Str.toUpperCase c = c.
Proof.
  unfold OFFICIAL_COMMUNES. intros H.
  repeat (apply elem_of_cons in H as [->|H]; [by split|]).
  by apply elem_of_nil in H.
Qed.

(** The built-ins leave an official name as it is. *)
Lemma official_canonical trim upper c :
  Builtins.Laws trim upper -> c ∈ OFFICIAL_COMMUNES -> canonical trim upper c.
Proof.
  intros L H.
  destruct (Builtins.on_ascii trim upper L c (official_isAscii c H)) as [T U].
  destruct (official_ascii_fixed c H) as [T' U'].
  split; [congruence|]. split; [congruence|]. by apply official_no_lower.
Qed.

(** A trimmed, upper-cased string is canonical. *)
Lemma normalized_canonical trim upper s :
  Builtins.Laws trim upper -> canonical trim upper (upper (trim s)).
Proof.
  intros L. split; [|split].
  - by rewrite (Builtins.trim_upper _ _ L), (Builtins.trim_trim _ _ L).
  - apply (Builtins.upper_upper _ _ L).
  - apply (Builtins.upper_no_lower _ _ L).
Qed.

Lemma canonicalOf_cases n :
  canonicalOf n = n \/ canonicalOf n ∈ OFFICIAL_COMMUNES.
Proof.
  unfold canonicalOf. rewrite variants_lookup.
  repeat case_decide; cbn [default id]; [right|right|by left].
  - unfold OFFICIAL_COMMUNES. do 10 (apply elem_of_cons; right).
    apply elem_of_cons. by left.
  - unfold OFFICIAL_COMMUNES. do 13 (apply elem_of_cons; right).
    apply elem_of_cons. by left.
Qed.

Lemma canonicalOf_official c : c ∈ OFFICIAL_COMMUNES -> canonicalOf c = c.
Proof.
  intros H. unfold canonicalOf. rewrite variants_lookup.
  unfold OFFICIAL_COMMUNES in H.
  repeat (apply elem_of_cons in H as [->|H]; [by repeat case_decide|]).
  by apply elem_of_nil in H.
Qed.

Lemma builtins_normalizeName_official trim upper c :
  Builtins.Laws trim upper -> c ∈ OFFICIAL_COMMUNES ->
  Builtins.normalizeName trim upper (Some (JStr c)) = Returned (Some c).
Proof.
  intros L H. destruct (official_canonical trim upper c L H) as (T & U & _).
  rewrite (builtins_normalizeName_truthy trim upper (JStr c) c).
  - by rewrite T, U, canonicalOf_official.
  - pose proof (official_nonempty c H). by destruct c.
  - done.
Qed.

(** C7, as amended.  Let [trim] and [toUpperCase] obey the laws of the
    built-ins.  Canonicalizing a result of [normalizeName] that is not the
    empty string returns it unchanged, whatever value the result came from;
    every official commune is its own canonical form; and every string that
    trims and upper-cases to DINDEFELLO has the canonical form DINDEFELO. *)
Theorem normalizeName_idempotent (trim toUpperCase : string -> string) :
  Builtins.Laws trim toUpperCase ->
  (forall v r,
     Builtins.normalizeName trim toUpperCase v = Returned (Some r) ->
     r <> "" ->
     Builtins.normalizeName trim toUpperCase (Some (JStr r))
     = Returned (Some r)) /\
  (forall c, c ∈ OFFICIAL_COMMUNES ->
     Builtins.normalizeName trim toUpperCase (Some (JStr c))
     = Returned (Some c)) /\
  (forall s, toUpperCase (trim s) = "DINDEFELLO" ->
     Builtins.normalizeName trim toUpperCase (Some (JStr s))
     = Returned (Some "DINDEFELO")).
Proof.
  intros L. split; [|split].
  - intros v r H Hr.
    apply builtins_normalizeName_Some in H as (j & s & _ & _ & _ & ->).
    destruct (canonicalOf_cases (toUpperCase (trim s))) as [E|Off].
    + rewrite E in *.
      destruct (normalized_canonical trim toUpperCase s L) as (T & U & _).
      rewrite (builtins_normalizeName_truthy trim toUpperCase
                 (JStr (toUpperCase (trim s))) (toUpperCase (trim s)));
        [|by destruct (toUpperCase (trim s))|done].
      by rewrite T, U, E.
    + by apply builtins_normalizeName_official.
  - intros c H. by apply builtins_normalizeName_official.
  - intros s E.
    assert (s <> "") as Ne.
    { intros ->.
      destruct (Builtins.on_ascii trim toUpperCase L "" eq_refl) as [T U].
      rewrite T in E. cbn in E. rewrite U in E. discriminate E. }
    rewrite (builtins_normalizeName_truthy trim toUpperCase (JStr s) s);
      [|by destruct s|done].
    by rewrite E.
Qed.

(** With the ASCII functions for the built-ins: a variant in mixed case
    between blanks, its canonical form again, and an official name. *)
Lemma normalizeName_idempotent_witness :
  Builtins.Laws Str.trim Str.toUpperCase /\
  normalizeName (Some (JStr "  DinDefello ")) = Returned (Some "DINDEFELO") /\
  normalizeName (Some (JStr "DINDEFELO")) = Returned (Some "DINDEFELO") /\
  normalizeName (Some (JStr "SINTHIOU MALEME"))
  = Returned (Some "SINTHIOU MALEME").
Proof.
  split; [exact ascii_laws|].
  destruct (normalizeName_idempotent Str.trim Str.toUpperCase ascii_laws)
    as (Idem & Off & Var).
  rewrite <- !builtins_normalizeName_ascii.
  split; [|split].
  - apply Var. reflexivity.
  - apply (Idem (Some (JStr " dindefello")) "DINDEFELO"); [reflexivity|done].
  - apply Off. unfold OFFICIAL_COMMUNES. do 5 (apply elem_of_cons; right).
    apply elem_of_cons. by left.
Defined.

(** ** The stored communes, over the built-in string functions *)

Lemma builtins_processFeatures_ascii st features :
  Builtins.processFeatures Str.trim Str.toUpperCase st features
  = processFeatures st features.
Proof.
  revert st. induction features as [|feat rest IH]; intros st; [done|].
  cbn [Builtins.processFeatures processFeatures].
  change (Builtins.processFeature Str.trim Str.toUpperCase st feat)
    with (processFeature st feat).
  destruct (processFeature st feat) as [st1|e]; [|done].
  cbn [mbind completion_bind]. apply IH.
Qed.

Lemma builtins_processFile_ascii st f :
  Builtins.processFile Str.trim Str.toUpperCase st f = processFile st f.
Proof.
  destruct f as [|gj]; [done|].
  destruct gj; try done; cbn [Builtins.processFile processFile];
    destruct (iterate _) as [features|e]; try done;
    cbn [mbind completion_bind]; apply builtins_processFeatures_ascii.
Qed.

Lemma builtins_processFiles_ascii st files :
  Builtins.processFiles Str.trim Str.toUpperCase st files
  = processFiles st files.
Proof.
  revert st. induction files as [|f rest IH]; intros st; [done|].
  cbn [Builtins.processFiles processFiles].
  rewrite builtins_processFile_ascii.
  destruct (processFile st f) as [st1|e]; [|done].
  cbn [mbind completion_bind]. apply IH.
Qed.

(** With the functions of [Str] for the built-ins, the run of [Builtins] is
    the run modelled above. *)
Lemma builtins_main_ascii files :
  Builtins.main Str.trim Str.toUpperCase files = main files.
Proof. apply builtins_processFiles_ascii. Qed.

Lemma builtins_extractCommuneFromSourceFile_official upper v c :
  Builtins.extractCommuneFromSourceFile upper v = Returned (Some c) ->
  c ∈ OFFICIAL_COMMUNES.
Proof.
  unfold Builtins.extractCommuneFromSourceFile. destruct v as [j|]; [|done].
  destruct (JS.truthy (Some j)); [|done]. cbn [negb].
  destruct (JS.toString j) as [s|e]; [|done].
  cbn [mbind completion_bind].
  destruct (find (fun c => Str.includes _ c) OFFICIAL_COMMUNES) as [c'|] eqn:F1.
  - intros H. apply Returned_inj in H. injection H as ->.
    apply find_FirstIn in F1 as (pre & post & E & _).
    rewrite E. apply elem_of_app. right. apply elem_of_cons. by left.
  - intros F2%Returned_inj. apply find_FirstIn in F2 as (pre & post & E & _).
    rewrite E. apply elem_of_app. right. apply elem_of_cons. by left.
Qed.

(** The commune resolved for a feature is canonical. *)
Lemma builtins_extractCommune_canonical trim upper p props c :
  Builtins.Laws trim upper ->
  Builtins.extractCommune trim upper p props = Returned (Some c) ->
  canonical trim upper c.
Proof.
  intros L. unfold Builtins.extractCommune.
  destruct (Builtins.normalizeName trim upper (directValue p props))
    as [com|e] eqn:N; [|done].
  cbn [mbind completion_bind].
  destruct (negb (truthyS com) && _).
  - intros H%builtins_extractCommuneFromSourceFile_official.
    by apply official_canonical.
  - intros ->%Returned_inj.
    apply builtins_normalizeName_Some in N as (j & s & _ & _ & _ & ->).
    destruct (canonicalOf_cases (upper (trim s))) as [->|Off].
    + by apply normalized_canonical.
    + by apply official_canonical.
Qed.

Lemma builtins_resolveFeature_commune trim upper p feat props num com :
  Builtins.resolveFeature trim upper p feat = Returned (props, num, com) ->
  Builtins.extractCommune trim upper p props = Returned com.
Proof.
  unfold Builtins.resolveFeature.
  destruct feat; try done;
    (destruct (findNumParcel p _) as [num'|e]; [|done];
     cbn [mbind completion_bind];
     destruct (Builtins.extractCommune trim upper p _) as [com'|e] eqn:E;
       [|done];
     cbn [mbind completion_bind]; intros H; apply Returned_inj in H;
     injection H as <- _ <-; exact E).
Qed.

(** A sighting whose commune satisfies [P] keeps the communes stored as they
    are, or stores its own, when that is not the empty string. *)
Lemma storeSighting_communesAre P st n com props :
  communesAre P st -> (forall c, com = Some c -> P c) ->
  communesAre P (storeSighting st n com props).
Proof.
  intros Inv Hc k r c Hr Hcr. unfold storeSighting in Hr.
  rewrite countSighting_numParcelMap in Hr.
  destruct (decide (n = k)) as [->|Ne].
  - destruct (numParcelMap st !! k) as [r0|] eqn:E.
    + rewrite (storeRecord_present _ _ _ _ r0 E) in Hr. injection Hr as <-.
      cbn [commune] in Hcr. unfold backfill in Hcr.
      destruct (truthyS (commune r0)) eqn:T0; cbn [negb andb] in Hcr.
      * by apply (Inv k r0 c).
      * destruct (truthyS com) eqn:Tc.
        -- subst com. split; [by destruct c|by apply Hc].
        -- by apply (Inv k r0 c).
    + destruct (inheritedSlotOf st k) eqn:I.
      * rewrite storeRecord_inherited in Hr by (done || congruence). congruence.
      * rewrite storeRecord_inherited in Hr by (done || congruence). congruence.
      * rewrite storeRecord_fresh in Hr by done. injection Hr as <-.
        cbn [commune] in Hcr. destruct (truthyS com) eqn:Tc; [|done].
        subst com. split; [by destruct c|by apply Hc].
  - rewrite storeRecord_other in Hr by done. by apply (Inv k r c).
Qed.

Lemma builtins_processFeature_communesAre trim upper st feat st' :
  Builtins.Laws trim upper ->
  communesAre (canonical trim upper) st ->
  Builtins.processFeature trim upper st feat = Returned st' ->
  communesAre (canonical trim upper) st'.
Proof.
  intros L Inv. unfold Builtins.processFeature.
  destruct (Builtins.resolveFeature _ _ _ _) as [[[props num] com]|e] eqn:R;
    [|done].
  cbn [mbind completion_bind]. destruct num as [n|].
  - destruct (truthyS (Some n)).
    + intros <-%Returned_inj. apply storeSighting_communesAre; [done|].
      intros c ->. apply builtins_resolveFeature_commune in R.
      by apply (builtins_extractCommune_canonical trim upper (polluted st)
                  props).
    + by intros <-%Returned_inj.
  - by intros <-%Returned_inj.
Qed.

Lemma builtins_processFeatures_communesAre trim upper st features st' :
  Builtins.Laws trim upper ->
  communesAre (canonical trim upper) st ->
  Builtins.processFeatures trim upper st features = Returned st' ->
  communesAre (canonical trim upper) st'.
Proof.
  intros L. revert st. induction features as [|feat rest IH]; intros st Inv.
  - by intros <-%Returned_inj.
  - cbn [Builtins.processFeatures].
    destruct (Builtins.processFeature trim upper st feat) as [st1|e] eqn:F;
      [|done].
    cbn [mbind completion_bind]. apply IH.
    by apply (builtins_processFeature_communesAre trim upper st feat).
Qed.

Lemma builtins_processFile_communesAre trim upper st f st' :
  Builtins.Laws trim upper ->
  communesAre (canonical trim upper) st ->
  Builtins.processFile trim upper st f = Returned st' ->
  communesAre (canonical trim upper) st'.
Proof.
  intros L Inv. destruct f as [|gj]; [by intros <-%Returned_inj|].
  destruct gj; try done; cbn [Builtins.processFile];
    (destruct (iterate _) as [features|e]; [|done]);
    cbn [mbind completion_bind];
    by apply builtins_processFeatures_communesAre.
Qed.

Lemma builtins_processFiles_communesAre trim upper st files st' :
  Builtins.Laws trim upper ->
  communesAre (canonical trim upper) st ->
  Builtins.processFiles trim upper st files = Returned st' ->
  communesAre (canonical trim upper) st'.
Proof.
  intros L. revert st. induction files as [|f rest IH]; intros st Inv.
  - by intros <-%Returned_inj.
  - cbn [Builtins.processFiles].
    destruct (Builtins.processFile trim upper st f) as [st1|e] eqn:F; [|done].
    cbn [mbind completion_bind]. apply IH.
    by apply (builtins_processFile_communesAre trim upper st f).
Qed.

(** X12.  Let [trim] and [toUpperCase] obey the laws of the built-ins.  In
    the parcel lookup of any run, the commune of a record is null or a
    canonical name: a non-empty string that trimming and upper-casing leave
    as it is, with no letter of a-z in it. *)
Theorem stored_commune_is_canonical
    (trim toUpperCase : string -> string) (files : list parsed) (st' : State)
    (n : string) (r : ParcelRecord) (c : string) :
  Builtins.Laws trim toUpperCase ->
  Builtins.main trim toUpperCase files = Returned st' ->
  numParcelMap st' !! n = Some r ->
  commune r = Some c ->
  c <> "" /\ trim c = c /\ toUpperCase c = c /\ Str.hasLower c = false.
Proof.
  intros L H Hr Hc.
  assert (communesAre (canonical trim toUpperCase) st') as Inv.
  { apply (builtins_processFiles_communesAre trim toUpperCase initialState
             files st' L); [|exact H].
    intros k r0 c0 E. unfold initialState in E. cbn [numParcelMap] in E.
    by rewrite lookup_empty in E. }
  destruct (Inv n r c Hr Hc) as (Ne & T & U & Lo). done.
Qed.

Lemma stored_commune_is_canonical_witness :
  "DINDEFELO" <> "" /\ Str.trim "DINDEFELO" = "DINDEFELO" /\
  Str.toUpperCase "DINDEFELO" = "DINDEFELO" /\
  Str.hasLower "DINDEFELO" = false.
Proof.
  destruct scenario_outcome as (st' & M & _ & Hst & _).
  apply (stored_commune_is_canonical Str.trim Str.toUpperCase [scenarioFile]
           st' "A1"
           {| commune := Some "DINDEFELO";
              properties := JObj [("Num_parcel", JStr "A1");
                                  ("commune", JStr "dindefello")] |}).
  - exact ascii_laws.
  - rewrite builtins_main_ascii. exact M.
  - rewrite Hst. vm_compute. reflexivity.
  - reflexivity.
Defined.

(** ** The commune on Object.prototype *)

Lemma proto_inherited st : inheritedSlotOf st "__proto__" = BuiltinObject.
Proof.
  unfold inheritedSlotOf. rewrite bool_decide_eq_true_2; [done|].
  unfold JS.prototypeNames. do 10 (apply elem_of_cons; right).
  apply elem_of_cons. by left.
Qed.

(** One sighting, seen from [Object.prototype.commune]: only a sighting of
    the identifier [__proto__] writes it, and only when it is empty. *)
Lemma applySighting_polluted st n com props :
  numParcelMap st !! "__proto__" = None ->
  polluted (applySighting st (n, com, props))
  = if bool_decide (n = "__proto__") then backfill (polluted st) com
    else polluted st.
Proof.
  intros E. unfold polluted at 1. rewrite applySighting_builtinCommune.
  case_bool_decide as N.
  - subst n. unfold storeRecord, backfill. rewrite E, proto_inherited.
    fold (polluted st).
    replace (match polluted st with
             | Some s => Some s
             | None => polluted st
             end) with (polluted st) by (by destruct (polluted st)).
    destruct com as [c|].
    + destruct (negb (truthyS (polluted st)) && truthyS (Some c));
        cbn [builtinCommune]; [|done].
      by rewrite lookup_insert_eq.
    + cbn [truthyS]. by rewrite andb_false_r.
  - unfold storeRecord.
    destruct (numParcelMap st !! n) as [r|].
    + by destruct (negb _ && _).
    + destruct (inheritedSlotOf st n); try done.
      destruct com as [c|]; [|done].
      destruct (negb _ && _); [|done].
      cbn [builtinCommune]. by rewrite lookup_insert_ne.
Qed.

Lemma backfill_backfill cur com rest :
  backfill (backfill cur com) (firstTruthy rest)
  = backfill cur (firstTruthy (com :: rest)).
Proof.
  cbn [firstTruthy]. unfold backfill.
  destruct (truthyS cur) eqn:Tc; cbn [negb andb]; [by rewrite Tc|].
  destruct (truthyS com) eqn:T; cbn [negb andb].
  - by rewrite T.
  - by rewrite Tc.
Qed.

(** [Object.prototype.commune] at the end of a list of sightings. *)
Lemma fold_polluted tr st :
  numParcelMap st !! "__proto__" = None ->
  polluted (foldl applySighting st tr)
  = backfill (polluted st) (firstTruthy (fst <$> sightingsOf "__proto__" tr)).
Proof.
  revert st. induction tr as [|[[n com] props] tr IH]; intros st E.
  - cbn. unfold backfill. cbn [truthyS]. by rewrite andb_false_r.
  - cbn [foldl]. rewrite IH.
    + rewrite applySighting_polluted by done.
      unfold sightingsOf. cbn [omap list_omap]. fold (sightingsOf "__proto__" tr).
      case_bool_decide as N.
      * cbn [fmap list_fmap fst]. apply backfill_backfill.
      * done.
    + apply (fold_inherited_absent [(n, com, props)] st "__proto__" E).
      by rewrite proto_inherited.
Qed.

Lemma fold_polluted_stays tr st :
  truthyS (polluted st) = true ->
  polluted (foldl applySighting st tr) = polluted st.
Proof.
  revert st. induction tr as [|[[n com] props] tr IH]; intros st T; [done|].
  cbn [foldl].
  assert (polluted (applySighting st (n, com, props)) = polluted st) as E.
  { unfold polluted at 1. rewrite applySighting_builtinCommune.
    by apply storeRecord_polluted. }
  rewrite IH; [exact E|]. by rewrite E.
Qed.

(** With a commune on [Object.prototype], an object reads as if it had that
    commune as a member of its own, behind the members it has. *)
Lemma read_polluted c bag k :
  read (Some c) (JObj bag) k
  = read None (JObj (("commune", JStr c) :: bag)) k.
Proof.
  unfold read. cbn [JS.getOwn].
  destruct (JS.getOwn k bag) as [v|]; [done|].
  rewrite (String.eqb_sym "commune" k).
  by destruct (String.eqb k "commune").
Qed.

Lemma extractCommune_polluted c bag :
  extractCommune (Some c) (JObj bag)
  = extractCommune None (JObj (("commune", JStr c) :: bag)).
Proof. unfold extractCommune, directValue. by rewrite !read_polluted. Qed.

Lemma directValue_polluted c bag :
  c <> "" -> JS.getOwn "commune" bag = None ->
  directValue (Some c) (JObj bag) = Some (JStr c).
Proof.
  intros Ne G. unfold directValue.
  assert (read (Some c) (JObj bag) "commune" = Some (JStr c)) as ->
    by (unfold read; by rewrite G).
  unfold JS.or. cbn [JS.truthy]. by destruct c.
Qed.

Lemma protoTwice_run :
  exists st',
    main [protoTwiceFile] = Returned st' /\
    runSightings initialState [protoTwiceFile]
    = Returned
        [ ("__proto__", Some "KOAR",
           JObj [("Num_parcel", JStr "__proto__"); ("commune", JStr "KOAR")]);
          ("B7", Some "KOAR", JObj [("Num_parcel", JStr "B7")]);
          ("__proto__", Some "BALA",
           JObj [("Num_parcel", JStr "__proto__"); ("commune", JStr "BALA")]);
          ("B8", Some "KOAR", JObj [("Num_parcel", JStr "B8")]) ] /\
    polluted st' = Some "KOAR" /\
    numParcelMap st' !! "B8"
    = Some {| commune := Some "KOAR";
              properties := JObj [("Num_parcel", JStr "B8")] |} /\
    communeMap st' !! "KOAR"
    = Some {| count := 3; parcels := ["__proto__"; "B7"; "B8"] |} /\
    communeMap st' !! "BALA"
    = Some {| count := 1; parcels := ["__proto__"] |}.
Proof.
  eexists. split; [vm_compute; reflexivity|].
  split; [vm_compute; reflexivity|].
  split; [vm_compute; reflexivity|].
  split; [vm_compute; reflexivity|].
  split; vm_compute; reflexivity.
Qed.

(** X3.  [Object.prototype.commune] is written by the sightings of the
    identifier [__proto__], and by the first of them only: at the end of a
    run it is the first commune, over the sightings of [__proto__] in
    processing order, that is a non-empty string, and undefined when there is
    none.  Once it is set, nothing that is processed changes it.  While it is
    set, the commune of a property bag is resolved as if the bag had it as
    its own [commune] member, behind the members it has, so that a bag with
    no [commune] member has it as the value of its direct fields; the
    identifier is resolved as before.  In [protoFile], parcel B7 comes without
    any commune and is recorded, and counted, in KOAR; in [protoTwiceFile] a
    second sighting of [__proto__], in BALA, is counted in BALA and leaves
    KOAR on the prototype for parcel B8. *)
Theorem proto_identifier_pollutes_commune :
  (forall files st',
     main files = Returned st' ->
     exists tr,
       runSightings initialState files = Returned tr /\
       polluted st'
       = firstTruthy (fst <$> sightingsOf "__proto__" tr)) /\
  (forall st files st',
     truthyS (polluted st) = true ->
     processFiles st files = Returned st' ->
     polluted st' = polluted st) /\
  (forall c bag,
     extractCommune (Some c) (JObj bag)
     = extractCommune None (JObj (("commune", JStr c) :: bag)) /\
     findNumParcel (Some c) (JObj bag) = findNumParcel None (JObj bag) /\
     (c <> "" -> JS.getOwn "commune" bag = None ->
      directValue (Some c) (JObj bag) = Some (JStr c))) /\
  (exists st',
     main [protoFile] = Returned st' /\
     numParcelMap st' !! "B7"
     = Some {| commune := Some "KOAR";
               properties := JObj [("Num_parcel", JStr "B7")] |} /\
     numParcelMap st' !! "__proto__" = None /\
     communeMap st' !! "KOAR"
     = Some {| count := 2; parcels := ["__proto__"; "B7"] |}) /\
  (exists st',
     main [protoTwiceFile] = Returned st' /\
     polluted st' = Some "KOAR" /\
     numParcelMap st' !! "B8"
     = Some {| commune := Some "KOAR";
               properties := JObj [("Num_parcel", JStr "B8")] |} /\
     communeMap st' !! "KOAR"
     = Some {| count := 3; parcels := ["__proto__"; "B7"; "B8"] |} /\
     communeMap st' !! "BALA"
     = Some {| count := 1; parcels := ["__proto__"] |}).
Proof.
  split; [|split; [|split; [|split]]].
  - intros files st' H. apply processFiles_fold in H as (tr & Htr & ->).
    exists tr. split; [exact Htr|].
    rewrite fold_polluted by apply lookup_empty.
    rewrite backfill_firstTruthy.
    change (polluted initialState) with (@None string). cbn [truthyS].
    by destruct (firstTruthy _).
  - intros st files st' T H. apply processFiles_fold in H as (tr & _ & ->).
    by apply fold_polluted_stays.
  - intros c bag. split; [apply extractCommune_polluted|].
    split; [apply findNumParcel_unpolluted|apply directValue_polluted].
  - exact proto_run.
  - destruct protoTwice_run as (st' & M & _ & P & B8 & K & B).
    exists st'. split; [exact M|]. split; [exact P|]. split; [exact B8|].
    split; [exact K|exact B].
Qed.

(** The run of [protoTwiceFile]: KOAR, the commune of the first sighting of
    [__proto__], is on the prototype at the end. *)
Lemma proto_identifier_pollutes_commune_witness :
  exists st',
    main [protoTwiceFile] = Returned st' /\ polluted st' = Some "KOAR".
Proof.
  destruct proto_identifier_pollutes_commune as [First _].
  destruct protoTwice_run as (st' & M & Htr & _).
  exists st'. split; [exact M|].
  destruct (First [protoTwiceFile] st' M) as (tr & Htr' & ->).
  assert (tr = _) as -> by exact (Returned_eq _ _ _ Htr' Htr).
  vm_compute. reflexivity.
Defined.
